(** * Checkpoint tokens: the two-phase [start]/[end] protocol of [main.py]

    A shallow embedding of the request handlers [checkpoint_start] and
    [checkpoint_end], of the reward policy [get_token_reward] and of the
    Firestore operations they perform.

    - Numbers (CPM rates, rewards, balances) are exact rationals [Q]; every
      literal of the source is a decimal fraction and the thresholds 16, 7
      and 3.50 are compared exactly as written.
    - A Firestore document is a finite map from field names to values, a
      collection is a finite map from document ids to documents.
    - The handlers run in a state-and-exception monad over the two
      collections; the state also carries the list of calls made to the
      store and to the two HTTP providers, in order.
    - What ip-api.com and shrinkme.io answer is a parameter of each call. A
      failure of the transport to ip-api.com or to Firestore is not modelled;
      a key that is missing from a document, and an update of a document
      that does not exist, raise as they do in Python.
    - The HTML bodies are represented by the template that was chosen
      together with the values interpolated into it. *)

From Stdlib Require Import QArith Lqa OrderedTypeEx.
From stdpp Require Import base option list strings gmap fin_maps.

Local Open Scope string_scope.

(** ** Firestore values and documents *)

Inductive value :=
| VStr (s : string)
| VNum (n : Q).

Abbreviation doc := (gmap string value).
Abbreviation collection := (gmap string doc).

(** ** Reward policy (lines 64-82) *)

Definition CPM_RATES : gmap string Q :=
  list_to_map
    [ ("GL", 22.00); ("IE", 16.00); ("US", 11.00); ("BE", 7.50); ("GB", 7.00);
      ("CA", 6.50); ("BR", 6.50); ("NZ", 6.00); ("AU", 6.00); ("SE", 5.50);
      ("FR", 5.00); ("ES", 5.00); ("DE", 5.00); ("IN", 4.10); ("ID", 4.00);
      ("PH", 4.00); ("IT", 4.00); ("TH", 4.00); ("SA", 4.00); ("MX", 4.00) ]%Q.

Definition DEFAULT_CPM : Q := 3.50%Q.

(** [CPM_RATES.get(country_code, DEFAULT_CPM)] *)
Definition cpm_of (country_code : string) : Q :=
  default DEFAULT_CPM (CPM_RATES !! country_code).

Definition get_token_reward (country_code : string) : Q :=
  let cpm := cpm_of country_code in
  if Qle_bool 16 cpm then 10%Q
  else if Qle_bool 7 cpm then 7.5%Q
  else if negb (Qle_bool cpm 3.50) then 5%Q
  else 5%Q.

(** ** HTTP layer: requests, responses, providers *)

(** [request.headers]; Starlette stores header names in lower case. *)
Record Request := { headers : gmap string string }.

(** The body templates of the two handlers, with their interpolated values.
    [BASE_HTML.replace("{content}", content)] wraps each of them alike. *)
Inductive page :=
| NoIpPage                      (* "Could not detect your IP. ..."        *)
| GeoFailPage (message : string) (* "Failed to get IP info: {message}"    *)
| PingPage                      (* "Ping request received"                *)
| InvalidTokenStartPage         (* "Invalid token."                       *)
| ShortenFailPage               (* "Failed to generate ad link. ..."      *)
| StartPage (user_ip country : string) (token_reward : Q) (shrinkme_link : string)
| InvalidTokenEndPage           (* "Invalid Token"                        *)
| AlreadyUsedPage               (* "Token Already Used"                   *)
| MismatchPage                  (* "IP or Country Mismatch"               *)
| SuccessPage (token_reward : Q). (* "{token_reward} tokens have been added" *)

Record HTMLResponse := { content : page; status_code : Z }.

(** The JSON object answered by ip-api.com for
    [fields=status,message,country,countryCode,query]. *)
Record ip_info := {
  ip_status : string;
  ip_message : option string;
  ip_country : string;
  ip_countryCode : string;
  ip_query : string
}.

(** What [requests.get] on the shrinkme.io endpoint yields: a
    [requests.RequestException], or the decoded JSON object. *)
Inductive shrinkme_reply :=
| RequestException (e : string)
| ShrinkmeJson (status shortenedUrl error : option string).

(** The two remote providers, as seen by one request. *)
Record Providers := {
  ip_api : string → ip_info;
  shrinkme : string → shrinkme_reply
}.

(** ** Exceptions, state and the handler monad *)

Inductive exn :=
| KeyError (key : string)
| NotFound (document_id : string)
| TypeError
| ValueError
| Exception (message : string).

Inductive result (A : Type) :=
| Ok (a : A)
| Raised (e : exn).
Arguments Ok {A} a.
Arguments Raised {A} e.

(** A value written by [update]: a plain value or [firestore.Increment]. *)
Inductive field_write :=
| SetTo (v : value)
| Increment (n : Q).

(** Calls that leave the process, in the order they are made. *)
Inductive event :=
| GeoLookup (ip : string)
| Shorten (long_url : string)
| TokensQuery (token : string)
| TokensUpdate (document_id : string) (data : gmap string field_write)
| UsersUpdate (document_id : string) (data : gmap string field_write).

Record state := {
  tokens : collection;
  users : collection;
  calls : list event
}.

Definition M (A : Type) : Type := state → result A * state.

Definition ret {A} (a : A) : M A := λ st, (Ok a, st).

Definition raise {A} (e : exn) : M A := λ st, (Raised e, st).

Definition bind {A B} (m : M A) (k : A → M B) : M B :=
  λ st, match m st with
        | (Ok a, st') => k a st'
        | (Raised e, st') => (Raised e, st')
        end.

(** [try: ... except Exception as e: ...] *)
Definition try_except {A} (m : M A) : M (result A) :=
  λ st, let '(r, st') := m st in (Ok r, st').

Notation "x <- c1 ;; c2" := (bind c1 (λ x, c2))
  (at level 20, c1 at level 99, c2 at level 200, only parsing).
Notation "c1 ;; c2" := (bind c1 (λ _, c2))
  (at level 100, c2 at level 200, only parsing, right associativity).

Definition record (e : event) : M unit :=
  λ st, (Ok tt, {| tokens := tokens st; users := users st;
                   calls := calls st ++ [e] |}).

(** ** Firestore operations *)

(** Does the field [token] of the document equal the given string? *)
Definition has_token (token : string) (d : doc) : bool :=
  match d !! "token" with
  | Some (VStr s) => String.eqb s token
  | _ => false
  end.

(** A query without [order_by] streams its documents by ascending name;
    [limit(1)] followed by [next(token_ref, None)] keeps the first. *)
Definition first_by_name (l : list (string * doc)) : option (string * doc) :=
  foldr (λ x acc, match acc with
                  | None => Some x
                  | Some y => if String.leb x.1 y.1 then Some x else Some y
                  end) None l.

Definition where_token (c : collection) (token : string) : option (string * doc) :=
  first_by_name (filter (λ x, has_token token x.2) (map_to_list c)).

(** [update] merges the written fields into the stored document. *)
Definition apply_update (data : gmap string field_write) (d : doc) : doc :=
  merge (λ w old, match w with
                  | Some (SetTo v) => Some v
                  | Some (Increment n) =>
                      match old with
                      | Some (VNum b) => Some (VNum (b + n))
                      | _ => Some (VNum n)
                      end
                  | None => old
                  end) data d.

(** [db.collection('tokens').where('token', '==', token).limit(1).stream()]
    followed by [next(token_ref, None)] *)
Definition tokens_where_token_first (token : string) : M (option (string * doc)) :=
  record (TokensQuery token) ;;
  λ st, (Ok (where_token (tokens st) token), st).

(** [db.collection('tokens').document(id).update(data)]; the store refuses
    to update a document that does not exist. *)
Definition tokens_update (id : string) (data : gmap string field_write) : M unit :=
  record (TokensUpdate id data) ;;
  λ st, match tokens st !! id with
        | Some d => (Ok tt, {| tokens := <[id := apply_update data d]> (tokens st);
                               users := users st; calls := calls st |})
        | None => (Raised (NotFound id), st)
        end.

(** [db.collection('users').document(id).update(data)], for an id that is a
    path segment. An id with a slash names no document of the collection: the
    call raises as well, but the client may refuse the path before it calls
    the store, with an exception of another kind. *)
Definition users_update (id : string) (data : gmap string field_write) : M unit :=
  record (UsersUpdate id data) ;;
  λ st, match users st !! id with
        | Some d => (Ok tt, {| tokens := tokens st;
                               users := <[id := apply_update data d]> (users st);
                               calls := calls st |})
        | None => (Raised (NotFound id), st)
        end.

(** ** Provider calls *)

(** [get_ip_info] (lines 84-89), where ip-api.com is reached and answers with
    a JSON object that carries the keys the handlers subscript: [status], and
    after a success [country], [countryCode] and [query]. [message] is read
    with [.get]. The handlers await the lookup outside any [try]: a request
    that fails and an answer that lacks one of these keys raise there, which
    [Providers] does not describe. *)
Definition get_ip_info (P : Providers) (ip : string) : M ip_info :=
  record (GeoLookup ip) ;;
  ret (ip_api P ip).

(** [shorten_with_shrinkme] (lines 91-104). The [Exception] raised inside the
    [try] block is not a [RequestException] and leaves the function as it is. *)
Definition shorten_with_shrinkme (P : Providers) (long_url : string) : M string :=
  record (Shorten long_url) ;;
  match shrinkme P long_url with
  | RequestException e =>
      raise (Exception ("Failed to shorten URL: Request error - " ++ e))
  | ShrinkmeJson status shortenedUrl error =>
      if bool_decide (status = Some "success") then
        match shortenedUrl with
        | Some u => ret u
        | None => raise (KeyError "shortenedUrl")
        end
      else
        raise (Exception ("Failed to shorten URL: " ++ default "Unknown error" error))
  end.

(** ** Small pieces of Python *)

(** [d[key]] on a dictionary *)
Definition item (d : doc) (key : string) : M value :=
  match d !! key with
  | Some v => ret v
  | None => raise (KeyError key)
  end.

(** [s == d.get(key)] for a string [s]: [None] and numbers differ from it. *)
Definition str_eq (s : string) (v : option value) : bool :=
  match v with
  | Some (VStr s') => String.eqb s s'
  | _ => false
  end.

Definition response (c : page) (code : Z) : HTMLResponse :=
  {| content := c; status_code := code |}.

Definition BASE_API_URL : string := "https://beigeparrotfish.onpella.app".

(** ** [checkpoint_start] (lines 126-184) *)

Definition checkpoint_start (P : Providers) (request : Request) (token : string)
  : M HTMLResponse :=
  match headers request !! "cf-connecting-ip" with
  | None | Some "" => ret (response NoIpPage 400)
  | Some user_ip =>
      ip_info <- get_ip_info P user_ip ;;
      if negb (String.eqb (ip_status ip_info) "success") then
        ret (response (GeoFailPage (default "Unknown error" (ip_message ip_info))) 400)
      else
        let user_ip := ip_query ip_info in
        let country := ip_country ip_info in
        let country_code := ip_countryCode ip_info in
        let token_reward := get_token_reward country_code in
        if String.eqb token "ping-dummy-token" then
          ret (response PingPage 200)
        else
          token_doc <- tokens_where_token_first token ;;
          match token_doc with
          | Some (token_doc_id, _) =>
              tokens_update token_doc_id
                (<["initial_ip" := SetTo (VStr user_ip)]>
                 (<["initial_country" := SetTo (VStr country)]>
                  {["token_reward" := SetTo (VNum token_reward)]})) ;;
              let checkpoint_end_url :=
                BASE_API_URL ++ "/checkpoint_end?token=" ++ token in
              shrinkme_link <- try_except (shorten_with_shrinkme P checkpoint_end_url) ;;
              match shrinkme_link with
              | Raised _ => ret (response ShortenFailPage 500)
              | Ok shrinkme_link =>
                  ret (response (StartPage user_ip country token_reward shrinkme_link) 200)
              end
          | None => ret (response InvalidTokenStartPage 400)
          end
  end.

(** ** [checkpoint_end] (lines 186-231)

    The coroutine suspends once, at [await get_ip_info(current_ip)]. It is
    written as the part that runs up to the suspension and the part that runs
    from it; between the two the event loop may run other requests. *)

(** What a suspended [checkpoint_end] holds on to. *)
Record end_frame := {
  token_doc_id : string;
  token_data : doc;
  reply : ip_info
}.

(** Lines 188-207. *)
Definition end_until_await (P : Providers) (request : Request) (token : string)
  : M (HTMLResponse + end_frame) :=
  token_doc <- tokens_where_token_first token ;;
  match token_doc with
  | None => ret (inl (response InvalidTokenEndPage 400))
  | Some (token_doc_id, token_data) =>
      status <- item token_data "status" ;;
      if negb (str_eq "pending" (Some status)) then
        ret (inl (response AlreadyUsedPage 400))
      else
        match headers request !! "cf-connecting-ip" with
        | None | Some "" => ret (inl (response NoIpPage 400))
        | Some current_ip =>
            ip_info <- get_ip_info P current_ip ;;
            ret (inr {| token_doc_id := token_doc_id;
                        token_data := token_data;
                        reply := ip_info |})
        end
  end.

(** Lines 208-231. A user id that is not a string names no document
    ([TypeError]), and [firestore.Increment] refuses a reward that is not a
    number ([ValueError]): both raise before the user collection is written,
    the user id being looked at first. *)
Definition end_from_await (fr : end_frame) : M HTMLResponse :=
  let ip_info := reply fr in
  let token_data := token_data fr in
  if negb (String.eqb (ip_status ip_info) "success") then
    ret (response (GeoFailPage (default "Unknown error" (ip_message ip_info))) 400)
  else
    let current_ip := ip_query ip_info in
    let current_country := ip_country ip_info in
    if negb (str_eq current_ip (token_data !! "initial_ip"))
       || negb (str_eq current_country (token_data !! "initial_country")) then
      ret (response MismatchPage 400)
    else
      token_reward <- item token_data "token_reward" ;;
      tokens_update (token_doc_id fr) {["status" := SetTo (VStr "used")]} ;;
      user_id <- item token_data "userId" ;;
      match user_id with
      | VStr user_id =>
          match token_reward with
          | VNum token_reward =>
              users_update user_id {["balance" := Increment token_reward]} ;;
              ret (response (SuccessPage token_reward) 200)
          | VStr _ => raise ValueError
          end
      | VNum _ => raise TypeError
      end.

Definition checkpoint_end (P : Providers) (request : Request) (token : string)
  : M HTMLResponse :=
  r <- end_until_await P request token ;;
  match r with
  | inl resp => ret resp
  | inr fr => end_from_await fr
  end.

(** * Vocabulary of the statements *)

(** ** Outcomes

    The outcomes of [StartCheckpoint] and [EndCheckpoint] are the responses
    below; an unknown token is reported by a page of its own in each phase. *)

Definition NoOrigin : HTMLResponse := response NoIpPage 400.
Definition GeoLookupFailed (message : string) : HTMLResponse :=
  response (GeoFailPage message) 400.
Definition StartTokenNotFound : HTMLResponse := response InvalidTokenStartPage 400.
Definition ShorteningFailed : HTMLResponse := response ShortenFailPage 500.
Definition Started (address region : string) (reward : Q) (redirect : string)
  : HTMLResponse := response (StartPage address region reward redirect) 200.
Definition PingReceived : HTMLResponse := response PingPage 200.
Definition TokenNotFound : HTMLResponse := response InvalidTokenEndPage 400.
Definition TokenAlreadyUsed : HTMLResponse := response AlreadyUsedPage 400.
Definition OriginMismatch : HTMLResponse := response MismatchPage 400.
Definition Credited (amount : Q) : HTMLResponse := response (SuccessPage amount) 200.

(** ** States, origins and queries *)

(** The state after the calls [es] were made and nothing was written. *)
Definition after_calls (st : state) (es : list event) : state :=
  {| tokens := tokens st; users := users st; calls := calls st ++ es |}.

(** The origin header is missing, or present and empty ([not user_ip]). *)
Definition origin_absent (request : Request) : Prop :=
  headers request !! "cf-connecting-ip" = None ∨
  headers request !! "cf-connecting-ip" = Some "".

Definition origin_is (request : Request) (ip : string) : Prop :=
  headers request !! "cf-connecting-ip" = Some ip ∧ ip ≠ "".

(** The document a token query answers with: it carries the token, and its
    name is the least among the documents that do. *)
Definition first_match (c : collection) (token id : string) (d : doc) : Prop :=
  c !! id = Some d ∧ has_token token d = true ∧
  ∀ id' d', c !! id' = Some d' → has_token token d' = true →
            String.leb id id' = true.

(** ** What [start] writes *)

(** The stamp written by [start] for a provider reply. *)
Definition stamp (info : ip_info) (d : doc) : doc :=
  <["initial_ip" := VStr (ip_query info)]>
    (<["initial_country" := VStr (ip_country info)]>
       (<["token_reward" := VNum (get_token_reward (ip_countryCode info))]> d)).

(** The fields [start] passes to [update]. *)
Definition stamp_data (info : ip_info) : gmap string field_write :=
  <["initial_ip" := SetTo (VStr (ip_query info))]>
    (<["initial_country" := SetTo (VStr (ip_country info))]>
       {["token_reward" := SetTo (VNum (get_token_reward (ip_countryCode info)))]}).

(** [d'] is [d] with the three fields of the stamp set and every other
    field, the status among them, as it was. *)
Definition stamped_only (info : ip_info) (d d' : doc) : Prop :=
  d' !! "initial_ip" = Some (VStr (ip_query info)) ∧
  d' !! "initial_country" = Some (VStr (ip_country info)) ∧
  d' !! "token_reward" = Some (VNum (get_token_reward (ip_countryCode info))) ∧
  d' !! "status" = d !! "status" ∧
  ∀ field, field ≠ "initial_ip" → field ≠ "initial_country" →
           field ≠ "token_reward" → d' !! field = d !! field.

Definition checkpoint_end_url (token : string) : string :=
  BASE_API_URL ++ "/checkpoint_end?token=" ++ token.

(** The link shortener answered with a link. *)
Definition shortened (r : shrinkme_reply) (link : string) : Prop :=
  ∃ error, r = ShrinkmeJson (Some "success") (Some link) error.

(** The link shortener failed: the request failed, the reply does not report
    success, or it carries no link. *)
Definition shortening_fails (r : shrinkme_reply) : Prop :=
  match r with
  | RequestException _ => True
  | ShrinkmeJson status shortenedUrl _ =>
      status ≠ Some "success" ∨ shortenedUrl = None
  end.

(** The state [start] leaves once it has stamped document [id] and asked for
    the short link. *)
Definition stamped_state (st : state) (ip token id : string) (info : ip_info)
  (d : doc) : state :=
  {| tokens := <[id := stamp info d]> (tokens st);
     users := users st;
     calls := calls st ++
              [GeoLookup ip; TokensQuery token;
               TokensUpdate id (stamp_data info);
               Shorten (checkpoint_end_url token)] |}.

(** Every way a call of [checkpoint_start] can go. *)
Inductive start_outcome (P : Providers) (request : Request) (token : string)
  (st : state) : result HTMLResponse → state → Prop :=
| start_no_origin :
    origin_absent request →
    start_outcome P request token st (Ok NoOrigin) st
| start_geo_failed ip :
    origin_is request ip →
    ip_status (ip_api P ip) ≠ "success" →
    start_outcome P request token st
      (Ok (GeoLookupFailed (default "Unknown error" (ip_message (ip_api P ip)))))
      (after_calls st [GeoLookup ip])
| start_ping ip :
    origin_is request ip →
    ip_status (ip_api P ip) = "success" →
    token = "ping-dummy-token" →
    start_outcome P request token st (Ok PingReceived)
      (after_calls st [GeoLookup ip])
| start_unknown_token ip :
    origin_is request ip →
    ip_status (ip_api P ip) = "success" →
    token ≠ "ping-dummy-token" →
    where_token (tokens st) token = None →
    start_outcome P request token st (Ok StartTokenNotFound)
      (after_calls st [GeoLookup ip; TokensQuery token])
| start_not_shortened ip id d :
    origin_is request ip →
    ip_status (ip_api P ip) = "success" →
    token ≠ "ping-dummy-token" →
    where_token (tokens st) token = Some (id, d) →
    shortening_fails (shrinkme P (checkpoint_end_url token)) →
    start_outcome P request token st (Ok ShorteningFailed)
      (stamped_state st ip token id (ip_api P ip) d)
| start_done ip id d link :
    origin_is request ip →
    ip_status (ip_api P ip) = "success" →
    token ≠ "ping-dummy-token" →
    where_token (tokens st) token = Some (id, d) →
    shortened (shrinkme P (checkpoint_end_url token)) link →
    start_outcome P request token st
      (Ok (Started (ip_query (ip_api P ip)) (ip_country (ip_api P ip))
             (get_token_reward (ip_countryCode (ip_api P ip))) link))
      (stamped_state st ip token id (ip_api P ip) d).

(** ** What [end] writes *)

(** The state after document [id] was marked used and [reward] was added to
    the balance of [owner]. *)
Definition redeemed_state (st : state) (token id : string) (d : doc) (ip : string)
  (reward : Q) (owner : string) (u : doc) (balance : Q) : state :=
  {| tokens := <[id := <["status" := VStr "used"]> d]> (tokens st);
     users := <[owner := <["balance" := VNum (balance + reward)]> u]> (users st);
     calls := calls st ++
              [TokensQuery token; GeoLookup ip;
               TokensUpdate id {["status" := SetTo (VStr "used")]};
               UsersUpdate owner {["balance" := Increment reward]}] |}.

(** The token query answers with a pending document. *)
Definition pending_token (st : state) (token id : string) (d : doc) : Prop :=
  where_token (tokens st) token = Some (id, d) ∧
  d !! "status" = Some (VStr "pending").

(** The consistency check of [end]: address and region as recorded. *)
Definition origin_matches (d : doc) (info : ip_info) : Prop :=
  d !! "initial_ip" = Some (VStr (ip_query info)) ∧
  d !! "initial_country" = Some (VStr (ip_country info)).

(** The state once [end] has marked document [id] used, before any later
    call [es]. *)
Definition marked_used (st : state) (token id : string) (d : doc) (ip : string)
  (es : list event) : state :=
  {| tokens := <[id := <["status" := VStr "used"]> d]> (tokens st);
     users := users st;
     calls := calls st ++
              [TokensQuery token; GeoLookup ip;
               TokensUpdate id {["status" := SetTo (VStr "used")]}] ++ es |}.

(** Every way a call of [checkpoint_end] can go. *)
Inductive end_outcome (P : Providers) (request : Request) (token : string)
  (st : state) : result HTMLResponse → state → Prop :=
| end_unknown_token :
    where_token (tokens st) token = None →
    end_outcome P request token st (Ok TokenNotFound)
      (after_calls st [TokensQuery token])
| end_no_status id d :
    where_token (tokens st) token = Some (id, d) →
    d !! "status" = None →
    end_outcome P request token st (Raised (KeyError "status"))
      (after_calls st [TokensQuery token])
| end_already_used id d s :
    where_token (tokens st) token = Some (id, d) →
    d !! "status" = Some s →
    s ≠ VStr "pending" →
    end_outcome P request token st (Ok TokenAlreadyUsed)
      (after_calls st [TokensQuery token])
| end_no_origin id d :
    pending_token st token id d →
    origin_absent request →
    end_outcome P request token st (Ok NoOrigin)
      (after_calls st [TokensQuery token])
| end_geo_failed id d ip :
    pending_token st token id d →
    origin_is request ip →
    ip_status (ip_api P ip) ≠ "success" →
    end_outcome P request token st
      (Ok (GeoLookupFailed (default "Unknown error" (ip_message (ip_api P ip)))))
      (after_calls st [TokensQuery token; GeoLookup ip])
| end_mismatch id d ip :
    pending_token st token id d →
    origin_is request ip →
    ip_status (ip_api P ip) = "success" →
    ¬ origin_matches d (ip_api P ip) →
    end_outcome P request token st (Ok OriginMismatch)
      (after_calls st [TokensQuery token; GeoLookup ip])
| end_no_reward id d ip :
    pending_token st token id d →
    origin_is request ip →
    ip_status (ip_api P ip) = "success" →
    origin_matches d (ip_api P ip) →
    d !! "token_reward" = None →
    end_outcome P request token st (Raised (KeyError "token_reward"))
      (after_calls st [TokensQuery token; GeoLookup ip])
| end_no_owner id d ip v :
    pending_token st token id d →
    origin_is request ip →
    ip_status (ip_api P ip) = "success" →
    origin_matches d (ip_api P ip) →
    d !! "token_reward" = Some v →
    d !! "userId" = None →
    end_outcome P request token st (Raised (KeyError "userId"))
      (marked_used st token id d ip [])
| end_bad_owner id d ip v n :
    pending_token st token id d →
    origin_is request ip →
    ip_status (ip_api P ip) = "success" →
    origin_matches d (ip_api P ip) →
    d !! "token_reward" = Some v →
    d !! "userId" = Some (VNum n) →
    end_outcome P request token st (Raised TypeError)
      (marked_used st token id d ip [])
| end_bad_reward id d ip s owner :
    pending_token st token id d →
    origin_is request ip →
    ip_status (ip_api P ip) = "success" →
    origin_matches d (ip_api P ip) →
    d !! "token_reward" = Some (VStr s) →
    d !! "userId" = Some (VStr owner) →
    end_outcome P request token st (Raised ValueError)
      (marked_used st token id d ip [])
| end_owner_missing id d ip reward owner :
    pending_token st token id d →
    origin_is request ip →
    ip_status (ip_api P ip) = "success" →
    origin_matches d (ip_api P ip) →
    d !! "token_reward" = Some (VNum reward) →
    d !! "userId" = Some (VStr owner) →
    users st !! owner = None →
    end_outcome P request token st (Raised (NotFound owner))
      (marked_used st token id d ip
         [UsersUpdate owner {["balance" := Increment reward]}])
| end_credited id d ip reward owner u :
    pending_token st token id d →
    origin_is request ip →
    ip_status (ip_api P ip) = "success" →
    origin_matches d (ip_api P ip) →
    d !! "token_reward" = Some (VNum reward) →
    d !! "userId" = Some (VStr owner) →
    users st !! owner = Some u →
    end_outcome P request token st (Ok (Credited reward))
      {| tokens := <[id := <["status" := VStr "used"]> d]> (tokens st);
         users := <[owner := apply_update {["balance" := Increment reward]} u]>
                    (users st);
         calls := calls st ++
                  [TokensQuery token; GeoLookup ip;
                   TokensUpdate id {["status" := SetTo (VStr "used")]};
                   UsersUpdate owner {["balance" := Increment reward]}] |}.

(** ** Calls served one after the other *)

(** End calls served one after the other, each to completion. *)
Fixpoint serve_end (requests : list (Providers * Request)) (token : string)
  : M (list (result HTMLResponse)) :=
  match requests with
  | [] => ret []
  | (P, request) :: requests =>
      r <- try_except (checkpoint_end P request token) ;;
      rs <- serve_end requests token ;;
      ret (r :: rs)
  end.

Inductive call :=
| StartCall (P : Providers) (request : Request) (token : string)
| EndCall (P : Providers) (request : Request) (token : string).

Definition serve (c : call) : M (result HTMLResponse) :=
  match c with
  | StartCall P request token => try_except (checkpoint_start P request token)
  | EndCall P request token => try_except (checkpoint_end P request token)
  end.

Fixpoint serve_all (history : list call) : M (list (result HTMLResponse)) :=
  match history with
  | [] => ret []
  | c :: history =>
      r <- serve c ;;
      rs <- serve_all history ;;
      ret (r :: rs)
  end.

(** No start call of the history names the token. *)
Definition never_started (token : string) (history : list call) : Prop :=
  Forall (λ c, match c with
               | StartCall _ _ token' => token' ≠ token
               | EndCall _ _ _ => True
               end) history.

(** Every token is as its issuer created it: pending and without stamp. *)
Definition as_issued (st : state) : Prop :=
  ∀ id d, tokens st !! id = Some d →
          d !! "status" = Some (VStr "pending") ∧
          d !! "initial_ip" = None ∧ d !! "initial_country" = None ∧
          d !! "token_reward" = None.

(** The documents that carry [token] are the same in both states. *)
Definition untouched (token : string) (st st' : state) : Prop :=
  ∀ id d, has_token token d = true →
          (tokens st' !! id = Some d ↔ tokens st !! id = Some d).

(** ** Concurrent end calls

    The handlers are coroutines on one event loop: a call runs without
    interruption until it awaits, and [checkpoint_end] awaits once, at the
    address lookup; the calls to the store are synchronous. A schedule names,
    turn by turn, the call that runs next. *)

Inductive task :=
| Arrived (P : Providers) (request : Request) (token : string)
| Suspended (fr : end_frame)
| Finished (r : result HTMLResponse).

(** One turn of a call: up to its next suspension, or to its end. *)
Definition resume (t : task) : M task :=
  match t with
  | Arrived P request token =>
      r <- try_except (end_until_await P request token) ;;
      ret match r with
          | Ok (inl resp) => Finished (Ok resp)
          | Ok (inr fr) => Suspended fr
          | Raised e => Finished (Raised e)
          end
  | Suspended fr =>
      r <- try_except (end_from_await fr) ;;
      ret (Finished r)
  | Finished r => ret (Finished r)
  end.

Fixpoint event_loop (schedule : list nat) (tasks : list task) : M (list task) :=
  match schedule with
  | [] => ret tasks
  | i :: schedule =>
      match tasks !! i with
      | Some t =>
          t' <- resume t ;;
          event_loop schedule (<[i := t']> tasks)
      | None => event_loop schedule tasks
      end
  end.

Definition finished (t : task) : bool :=
  match t with Finished _ => true | _ => false end.

Definition credited (t : task) : bool :=
  match t with
  | Finished (Ok {| content := SuccessPage _ |}) => true
  | _ => false
  end.

(** [balance] of a user document, when it is a number. *)
Definition balance_of (st : state) (owner : string) : option Q :=
  match users st !! owner with
  | Some u => match u !! "balance" with
              | Some (VNum b) => Some b
              | _ => None
              end
  | None => None
  end.

(** ** Properties in the words of the specification *)

(** A handler rejects a missing origin before any lookup: it answers
    [NoOrigin] and leaves the state, the list of calls included, as it was. *)
Definition rejected_before_any_lookup
  (handler : Providers → Request → string → M HTMLResponse) : Prop :=
  ∀ P request token st,
    origin_absent request →
    handler P request token st = (Ok NoOrigin, st).

(** The property as the specification words it: after any history that never
    started the token, end answers [TokenNotFound]. *)
Definition end_of_unstarted_token_not_found : Prop :=
  ∀ st history token P request,
    as_issued st →
    never_started token history →
    (checkpoint_end P request token (serve_all history st).2).1
    = Ok TokenNotFound.

(** The property as the specification words it: an end call on a pending
    token with the recorded origin marks the token used, adds the recorded
    reward to the balance of the user the token names, and answers with that
    amount. *)
Definition end_on_match_credits : Prop :=
  ∀ P request token st id d ip reward owner,
    pending_token st token id d →
    origin_is request ip →
    ip_status (ip_api P ip) = "success" →
    origin_matches d (ip_api P ip) →
    d !! "token_reward" = Some (VNum reward) →
    d !! "userId" = Some (VStr owner) →
    ∃ st',
      checkpoint_end P request token st = (Ok (Credited reward), st') ∧
      tokens st' = <[id := <["status" := VStr "used"]> d]> (tokens st) ∧
      ∃ u, users st !! owner = Some u ∧
           users st' = <[owner := apply_update {["balance" := Increment reward]} u]>
                         (users st).

(** The property as the specification words it: however [n] end calls on
    one pending token with the recorded origin are interleaved, once all
    have finished exactly one of them has credited, and the balance has
    grown by the reward once. *)
Definition concurrent_ends_credit_once : Prop :=
  ∀ P request token st id d ip reward owner u balance n schedule tasks st',
    where_token (tokens st) token = Some (id, d) →
    d !! "status" = Some (VStr "pending") →
    origin_is request ip →
    ip_status (ip_api P ip) = "success" →
    d !! "initial_ip" = Some (VStr (ip_query (ip_api P ip))) →
    d !! "initial_country" = Some (VStr (ip_country (ip_api P ip))) →
    d !! "token_reward" = Some (VNum reward) →
    d !! "userId" = Some (VStr owner) →
    users st !! owner = Some u →
    u !! "balance" = Some (VNum balance) →
    event_loop schedule (replicate n (Arrived P request token)) st
    = (Ok tasks, st') →
    forallb finished tasks = true →
    (0 < n)%nat →
    length (filter credited tasks) = 1%nat ∧
    ∃ b, balance_of st' owner = Some b ∧ (b == balance + reward)%Q.

(** ** Sample providers, requests and stores *)

Definition geo_US : ip_info :=
  {| ip_status := "success"; ip_message := None;
     ip_country := "United States"; ip_countryCode := "US";
     ip_query := "1.2.3.4" |}.

Definition geo_DE : ip_info :=
  {| ip_status := "success"; ip_message := None;
     ip_country := "Germany"; ip_countryCode := "DE";
     ip_query := "9.9.9.9" |}.

Definition geo_fail (ip : string) : ip_info :=
  {| ip_status := "fail"; ip_message := Some "invalid query";
     ip_country := ""; ip_countryCode := ""; ip_query := ip |}.

(** Providers that resolve 1.2.3.4 to the United States, 9.9.9.9 to Germany,
    nothing else, and shorten every link. *)
Definition providers : Providers :=
  {| ip_api := λ ip, if String.eqb ip "1.2.3.4" then geo_US
                     else if String.eqb ip "9.9.9.9" then geo_DE
                     else geo_fail ip;
     shrinkme := λ _, ShrinkmeJson (Some "success") (Some "https://shrinkme.io/x") None |}.

(** Providers whose link shortener is unreachable. *)
Definition providers_without_shortener : Providers :=
  {| ip_api := ip_api providers;
     shrinkme := λ _, RequestException "timed out" |}.

Definition from_ip (ip : string) : Request :=
  {| headers := {["cf-connecting-ip" := ip]} |}.

Definition no_origin : Request := {| headers := ∅ |}.

(** A token as issued: pending, owned by [u1], not stamped. *)
Definition issued_doc : doc :=
  <["token" := VStr "t1"]>
    (<["status" := VStr "pending"]> {["userId" := VStr "u1"]}).

Definition issued_store : state :=
  {| tokens := {["doc1" := issued_doc]};
     users := {["u1" := {["balance" := VNum 0]}]};
     calls := [] |}.

(** The store after [start] was served for [t1] from 1.2.3.4. *)
Definition started_store : state :=
  {| tokens := {["doc1" := stamp geo_US issued_doc]};
     users := {["u1" := {["balance" := VNum 0]}]};
     calls := [] |}.

(** A token that was redeemed. *)
Definition used_doc : doc :=
  <["token" := VStr "t1"]>
    (<["status" := VStr "used"]> {["userId" := VStr "u1"]}).

Definition used_store : state :=
  {| tokens := {["doc1" := used_doc]};
     users := {["u1" := {["balance" := VNum 7.5]}]};
     calls := [] |}.

(** A store with two issued tokens. *)
Definition two_tokens_store : state :=
  {| tokens := <["doc2" := <["token" := VStr "t2"]> issued_doc]>
                 {["doc1" := issued_doc]};
     users := {["u1" := {["balance" := VNum 0]}]};
     calls := [] |}.

(** The started token of [started_store], its owner having no record. *)
Definition orphan_store : state :=
  {| tokens := {["doc1" := stamp geo_US issued_doc]};
     users := ∅;
     calls := [] |}.

(** A store in which a token happens to carry the reserved value. *)
Definition ping_store : state :=
  {| tokens := {["doc9" := <["token" := VStr "ping-dummy-token"]>
                             (<["status" := VStr "pending"]>
                                {["userId" := VStr "u1"]})]};
     users := {["u1" := {["balance" := VNum 0]}]};
     calls := [] |}.

(** ** How documents evolve over calls *)

(** A token document after some calls: the fields other than the status and
    the three stamped ones are as they were, and the status is as it was or
    has gone from [pending] to [used]. *)
Definition doc_evolves (d d' : doc) : Prop :=
  (∀ field, field ≠ "initial_ip" → field ≠ "initial_country" →
            field ≠ "token_reward" → field ≠ "status" →
            d' !! field = d !! field) ∧
  (d' !! "status" = d !! "status" ∨
   (d !! "status" = Some (VStr "pending") ∧ d' !! "status" = Some (VStr "used"))).

(** The same documents are stored, each evolved from what it was. *)
Definition tokens_evolve (c c' : collection) : Prop :=
  ∀ id, match c !! id, c' !! id with
        | Some d, Some d' => doc_evolves d d'
        | None, None => True
        | _, _ => False
        end.

(** The same user records are stored, each with every field but the balance
    as it was. *)
Definition users_evolve (c c' : collection) : Prop :=
  ∀ id, match c !! id, c' !! id with
        | Some u, Some u' => ∀ field, field ≠ "balance" → u' !! field = u !! field
        | None, None => True
        | _, _ => False
        end.

(** [k] credits of [reward] on top of [balance], in the order they are made. *)
Definition credited_times (k : nat) (reward balance : Q) : Q :=
  Nat.iter k (λ b, (b + reward)%Q) balance.

(** A token document that carries nothing but its token. *)
Definition bare_store : state :=
  {| tokens := {["doc1" := {["token" := VStr "t1"]}]};
     users := {["u1" := {["balance" := VNum 0]}]};
     calls := [] |}.

(** The started token of [started_store], its reward removed. *)
Definition unrewarded_store : state :=
  {| tokens := {["doc1" := delete "token_reward" (stamp geo_US issued_doc)]};
     users := {["u1" := {["balance" := VNum 0]}]};
     calls := [] |}.

(** ** Interleaved end calls on one token *)

(** The frame of an end call suspended at its address lookup: the document
    the query answered with and the reply of the lookup. *)
Definition frame_at_await (P : Providers) (id : string) (d : doc) (ip : string)
  : end_frame :=
  {| token_doc_id := id; token_data := d; reply := ip_api P ip |}.

(** The tasks of end calls that all carry the same arguments: a call has
    arrived, or is suspended on the frame [fr], or has finished. *)
Definition end_task (P : Providers) (request : Request) (token : string)
  (fr : end_frame) (t : task) : Prop :=
  t = Arrived P request token ∨ t = Suspended fr ∨ ∃ r, t = Finished r.

(** What holds between the turns of such calls, started in [st0] on the
    pending document [d] named [id]: the token collection is the initial one,
    or the initial one with [d] marked used, and the balance of the owner is
    the initial one plus one reward for each call that has answered the
    success page. *)
Definition between_turns (st0 : state) (id : string) (d : doc) (owner : string)
  (reward balance : Q) (tasks : list task) (st : state) : Prop :=
  (tokens st = tokens st0 ∨
   tokens st = <[id := <["status" := VStr "used"]> d]> (tokens st0)) ∧
  ∃ u, users st !! owner = Some u ∧
       u !! "balance"
       = Some (VNum (credited_times (length (filter credited tasks)) reward balance)).

(** A request that carries a second header beside the origin. *)
Definition forwarded_request : Request :=
  {| headers := <["x-forwarded-for" := "9.9.9.9"]>
                  {["cf-connecting-ip" := "1.2.3.4"]} |}.

(** The issued store after a start from 1.2.3.4 and a start from 9.9.9.9. *)
Definition twice_started_store : state :=
  (checkpoint_start providers (from_ip "9.9.9.9") "t1"
     (checkpoint_start providers (from_ip "1.2.3.4") "t1" issued_store).2).2.

(** A start and an end call from 9.9.9.9 on the sample token. *)
Definition restart_history : list call :=
  [StartCall providers (from_ip "9.9.9.9") "t1";
   EndCall providers (from_ip "9.9.9.9") "t1"].

(** * Properties *)

(** ** Reward policy: examples *)

Example reward_US : get_token_reward "US" = 7.5%Q.
Proof. reflexivity. Qed.

Example reward_GL : get_token_reward "GL" = 10%Q.
Proof. reflexivity. Qed.

Example reward_unknown : get_token_reward "ZZ" = 5%Q.
Proof. reflexivity. Qed.

(** ** The order of document names *)

Lemma leb_spec (a b : string) :
  String.leb a b = true ↔ a = b ∨ String_as_OT.lt a b.
Proof.
  unfold String.leb.
  destruct (String.compare a b) eqn:E.
  - apply String_as_OT.cmp_eq in E. tauto.
  - apply String_as_OT.cmp_lt in E. tauto.
  - split; [discriminate |].
    intros [-> | H%String_as_OT.cmp_lt].
    + assert (String.compare b b = Eq) by (by apply String_as_OT.cmp_eq).
      congruence.
    + unfold String_as_OT.cmp in H. congruence.
Qed.

Lemma leb_refl (a : string) : String.leb a a = true.
Proof. apply leb_spec. by left. Qed.

Lemma leb_trans (a b c : string) :
  String.leb a b = true → String.leb b c = true → String.leb a c = true.
Proof.
  rewrite !leb_spec.
  intros [-> | Hab] [-> | Hbc]; eauto using String_as_OT.lt_trans.
Qed.

(** ** The query [where('token', '==', token).limit(1)] *)

Lemma first_by_name_nil (l : list (string * doc)) :
  first_by_name l = None → l = [].
Proof.
  destruct l as [| x l]; [done |]. simpl.
  destruct (first_by_name l) as [y |]; [| done].
  by destruct (String.leb x.1 y.1).
Qed.

Lemma first_by_name_least (l : list (string * doc)) (x : string * doc) :
  first_by_name l = Some x →
  x ∈ l ∧ ∀ y, y ∈ l → String.leb x.1 y.1 = true.
Proof.
  revert x. induction l as [| a l IH]; intros x; [done |]. simpl.
  destruct (first_by_name l) as [y |] eqn:E.
  - destruct (IH y eq_refl) as [Hy Hmin].
    destruct (String.leb a.1 y.1) eqn:L; intros [= <-].
    + split; [left |]. intros z [-> | Hz]%elem_of_cons; [apply leb_refl |].
      eapply leb_trans; eauto.
    + split; [by right |]. intros z [-> | Hz]%elem_of_cons; [| by apply Hmin].
      destruct (String.leb_total a.1 y.1); congruence.
  - intros [= <-]. apply first_by_name_nil in E as ->.
    split; [left |]. intros z ->%list_elem_of_singleton. apply leb_refl.
Qed.

Lemma first_match_unique (c : collection) token id1 d1 id2 d2 :
  first_match c token id1 d1 → first_match c token id2 d2 →
  id1 = id2 ∧ d1 = d2.
Proof.
  intros (H1 & T1 & M1) (H2 & T2 & M2).
  assert (id1 = id2) as ->.
  { apply String.leb_antisym; eauto. }
  split; congruence.
Qed.

Lemma where_token_first_match (c : collection) token id d :
  where_token c token = Some (id, d) → first_match c token id d.
Proof.
  unfold where_token. intros [Hin Hmin]%first_by_name_least.
  apply list_elem_of_filter in Hin as [Ht Hin%elem_of_map_to_list].
  simpl in *. repeat split; [done | by apply Is_true_true |].
  intros id' d' Hl Ht'.
  apply (Hmin (id', d')), list_elem_of_filter.
  split; [by apply Is_true_true | by apply elem_of_map_to_list].
Qed.

Lemma where_token_None (c : collection) token id d :
  where_token c token = None → c !! id = Some d → has_token token d = false.
Proof.
  unfold where_token. intros Hnil%first_by_name_nil Hl.
  destruct (has_token token d) eqn:Ht; [| done].
  assert ((id, d) ∈ filter (λ x, has_token token x.2) (map_to_list c)) as Hin.
  { apply list_elem_of_filter. split; [by apply Is_true_true |].
    by apply elem_of_map_to_list. }
  rewrite Hnil in Hin. by apply elem_of_nil in Hin.
Qed.

Lemma first_match_where_token (c : collection) token id d :
  first_match c token id d → where_token c token = Some (id, d).
Proof.
  intros Hfm. destruct (where_token c token) as [[id' d'] |] eqn:E.
  - apply where_token_first_match in E.
    by destruct (first_match_unique _ _ _ _ _ _ E Hfm) as [-> ->].
  - destruct Hfm as (Hl & Ht & _).
    rewrite (where_token_None _ _ _ _ E Hl) in Ht. done.
Qed.

(** Rewriting the answered document keeps it the answer, as long as the
    rewritten document still carries the token. *)
Lemma where_token_insert (c : collection) token id d d' :
  where_token c token = Some (id, d) → has_token token d' = true →
  where_token (<[id := d']> c) token = Some (id, d').
Proof.
  intros (Hl & Ht & Hmin)%where_token_first_match Ht'.
  apply first_match_where_token. repeat split; [by rewrite lookup_insert_eq | done |].
  intros id' d''. destruct (decide (id = id')) as [<- | Hne].
  - intros _ _. apply leb_refl.
  - rewrite lookup_insert_ne by done. apply Hmin.
Qed.

(** ** Updates *)

Lemma apply_update_set (k : string) (v : value) (d : doc) :
  apply_update {[k := SetTo v]} d = <[k := v]> d.
Proof.
  apply map_eq. intros i. unfold apply_update. rewrite lookup_merge.
  destruct (decide (k = i)) as [<- | Hne].
  - rewrite lookup_singleton_eq, lookup_insert_eq. by destruct (d !! k).
  - rewrite lookup_singleton_ne, lookup_insert_ne by done. by destruct (d !! i).
Qed.

Lemma apply_update_increment (k : string) (n b : Q) (d : doc) :
  d !! k = Some (VNum b) →
  apply_update {[k := Increment n]} d = <[k := VNum (b + n)]> d.
Proof.
  intros Hb. apply map_eq. intros i. unfold apply_update. rewrite lookup_merge.
  destruct (decide (k = i)) as [<- | Hne].
  - by rewrite lookup_singleton_eq, lookup_insert_eq, Hb.
  - rewrite lookup_singleton_ne, lookup_insert_ne by done. by destruct (d !! i).
Qed.

Lemma str_eq_true (s : string) (v : option value) :
  str_eq s v = true ↔ v = Some (VStr s).
Proof.
  destruct v as [[s' | n] |]; simpl; try (split; [discriminate | congruence]).
  rewrite String.eqb_eq. split; congruence.
Qed.

Lemma str_eq_false (s : string) (v : option value) :
  str_eq s v = false ↔ v ≠ Some (VStr s).
Proof.
  rewrite <- str_eq_true. by destruct (str_eq s v).
Qed.

Lemma status_cases (s : value) : s = VStr "pending" ∨ s ≠ VStr "pending".
Proof.
  destruct (str_eq "pending" (Some s)) eqn:E.
  - apply str_eq_true in E. left. congruence.
  - apply str_eq_false in E. right. congruence.
Qed.

Lemma has_token_set_status token (v : value) (d : doc) :
  has_token token (<["status" := v]> d) = has_token token d.
Proof. unfold has_token. by rewrite lookup_insert_ne. Qed.

Ltac run :=
  cbv beta iota zeta delta
    [checkpoint_start checkpoint_end end_until_await end_from_await
     tokens_where_token_first tokens_update users_update get_ip_info
     shorten_with_shrinkme item try_except bind ret raise record after_calls];
  cbn [tokens users calls token_doc_id token_data reply fst snd].

(** ** Reward policy *)

(** C6: [get_token_reward] is a total function of the country code: a rate of
    at least 16 gives 10, a rate in [7,16) gives 7.5, a rate in (3.5,7) gives
    5, and a rate of at most 3.5, or a code absent from the table (which takes
    the default rate 3.5), gives 5 as well. *)
Theorem get_token_reward_tiers (country_code : string) :
  let cpm := cpm_of country_code in
  ((16 <= cpm)%Q → get_token_reward country_code = 10%Q) ∧
  ((7 <= cpm)%Q ∧ (cpm < 16)%Q → get_token_reward country_code = 7.5%Q) ∧
  ((3.5 < cpm)%Q ∧ (cpm < 7)%Q → get_token_reward country_code = 5%Q) ∧
  ((cpm <= 3.5)%Q → get_token_reward country_code = 5%Q) ∧
  (CPM_RATES !! country_code = None →
   cpm = DEFAULT_CPM ∧ get_token_reward country_code = 5%Q).
Proof.
  intros cpm. unfold get_token_reward. fold cpm.
  assert (Hdef : CPM_RATES !! country_code = None → cpm = DEFAULT_CPM).
  { intros Hnone. subst cpm. unfold cpm_of. rewrite Hnone. reflexivity. }
  destruct (Qle_bool 16 cpm) eqn:H16; [| destruct (Qle_bool 7 cpm) eqn:H7;
    [| destruct (Qle_bool cpm 3.50) eqn:H35]]; simpl.
  all: repeat match goal with
       | H : Qle_bool _ _ = true |- _ => apply Qle_bool_iff in H
       | H : Qle_bool ?a ?b = false |- _ =>
           assert (¬ (a <= b)%Q) by (rewrite <- Qle_bool_iff; congruence); clear H
       end.
  all: repeat split; try done.
  all: try (intros [? ?]; exfalso; lra).
  all: try (intros ?; exfalso; lra).
  all: try (by auto).
  all: exfalso; match goal with
       | H : CPM_RATES !! _ = None |- _ =>
           apply Hdef in H; rewrite H in *; unfold DEFAULT_CPM in *; lra
       end.
Qed.

Lemma get_token_reward_tiers_witness :
  get_token_reward "US" = 7.5%Q ∧ get_token_reward "IE" = 10%Q ∧
  get_token_reward "IN" = 5%Q ∧ get_token_reward "Atlantis" = 5%Q.
Proof.
  split; [| split; [| split]].
  - destruct (get_token_reward_tiers "US") as (_ & H & _).
    apply H. split; vm_compute; congruence.
  - destruct (get_token_reward_tiers "IE") as (H & _).
    apply H. vm_compute; congruence.
  - destruct (get_token_reward_tiers "IN") as (_ & _ & H & _).
    apply H. split; vm_compute; congruence.
  - destruct (get_token_reward_tiers "Atlantis") as (_ & _ & _ & _ & H).
    apply H. reflexivity.
Defined.

(** ** [checkpoint_end] *)

Lemma after_calls_nil (st : state) : after_calls st [] = st.
Proof. destruct st. unfold after_calls. simpl. by rewrite app_nil_r. Qed.

Lemma after_calls_app (st : state) (es es' : list event) :
  after_calls (after_calls st es) es' = after_calls st (es ++ es').
Proof. unfold after_calls. simpl. by rewrite app_assoc. Qed.

(** A token whose status is anything but [pending] is refused right after
    the token query. *)
Lemma end_not_pending P request token st id d s :
  where_token (tokens st) token = Some (id, d) →
  d !! "status" = Some s →
  s ≠ VStr "pending" →
  checkpoint_end P request token st
  = (Ok TokenAlreadyUsed, after_calls st [TokensQuery token]).
Proof.
  intros Hq Hs Hne. run. rewrite Hq. run. rewrite Hs. run.
  assert (str_eq "pending" (Some s) = false) as ->; [| done].
  apply str_eq_false. congruence.
Qed.

(** Calls served one after the other on a token that is not pending are all
    refused, and write nothing. *)
Lemma serve_end_not_pending (requests : list (Providers * Request)) token st id d s :
  where_token (tokens st) token = Some (id, d) →
  d !! "status" = Some s →
  s ≠ VStr "pending" →
  serve_end requests token st
  = (Ok (replicate (length requests) (Ok TokenAlreadyUsed)),
     after_calls st (replicate (length requests) (TokensQuery token))).
Proof.
  intros Hq Hs Hne. revert st Hq.
  induction requests as [| [P request] requests IH]; intros st Hq.
  - simpl. by rewrite after_calls_nil.
  - cbn [serve_end length replicate]. unfold bind at 1, try_except at 1.
    rewrite (end_not_pending P request token st id d s) by done.
    unfold bind at 1. rewrite IH by done. unfold ret.
    by rewrite after_calls_app.
Qed.

(** C5: a token whose status is [used] is terminal: every end call on it, and
    every repetition of such calls, is answered [TokenAlreadyUsed], and neither
    the token collection nor the user collection changes; each call only
    queries the token. *)
Theorem end_on_used_token (requests : list (Providers * Request)) token st id d :
  where_token (tokens st) token = Some (id, d) →
  d !! "status" = Some (VStr "used") →
  serve_end requests token st
  = (Ok (replicate (length requests) (Ok TokenAlreadyUsed)),
     after_calls st (replicate (length requests) (TokensQuery token))).
Proof.
  intros Hq Hs. by apply (serve_end_not_pending requests token st id d (VStr "used")).
Qed.

Lemma end_on_used_token_witness :
  serve_end [(providers, from_ip "1.2.3.4"); (providers, no_origin)] "t1" used_store
  = (Ok [Ok TokenAlreadyUsed; Ok TokenAlreadyUsed],
     after_calls used_store [TokensQuery "t1"; TokensQuery "t1"]).
Proof.
  apply (end_on_used_token
           [(providers, from_ip "1.2.3.4"); (providers, no_origin)]
           "t1" used_store "doc1" used_doc);
    reflexivity.
Defined.

(** C4: an end call on a pending token whose resolved address or resolved
    region differs from the recorded one is answered [OriginMismatch] and
    writes nothing: both collections are as before, so the token is still
    pending and the balance is what it was. *)
Theorem end_origin_mismatch P request token st id d ip :
  where_token (tokens st) token = Some (id, d) →
  d !! "status" = Some (VStr "pending") →
  origin_is request ip →
  ip_status (ip_api P ip) = "success" →
  d !! "initial_ip" ≠ Some (VStr (ip_query (ip_api P ip))) ∨
  d !! "initial_country" ≠ Some (VStr (ip_country (ip_api P ip))) →
  ∃ st',
    checkpoint_end P request token st = (Ok OriginMismatch, st') ∧
    st' = after_calls st [TokensQuery token; GeoLookup ip] ∧
    tokens st' !! id = Some d ∧
    users st' = users st.
Proof.
  intros Hq Hs [Hh Hip] Hgeo Hdiff.
  exists (after_calls st [TokensQuery token; GeoLookup ip]).
  split; [| split; [done | split; [| done]]].
  - run. rewrite Hq. run. rewrite Hs. run. simpl. rewrite Hh.
    destruct ip as [| a ip]; [done |]. run. rewrite Hgeo. simpl.
    assert (negb (str_eq (ip_query (ip_api P (String a ip))) (d !! "initial_ip"))
            || negb (str_eq (ip_country (ip_api P (String a ip)))
                       (d !! "initial_country")) = true) as ->.
    { apply orb_true_iff.
      destruct Hdiff as [H | H]; [left | right];
        apply negb_true_iff, str_eq_false, H. }
    by rewrite <- app_assoc.
  - by apply where_token_first_match in Hq as (? & _).
Qed.

Lemma end_origin_mismatch_witness :
  ∃ st',
    checkpoint_end providers (from_ip "9.9.9.9") "t1" started_store
    = (Ok OriginMismatch, st') ∧
    st' = after_calls started_store [TokensQuery "t1"; GeoLookup "9.9.9.9"] ∧
    tokens st' !! "doc1" = Some (stamp geo_US issued_doc) ∧
    users st' = users started_store.
Proof.
  apply (end_origin_mismatch providers (from_ip "9.9.9.9") "t1" started_store
           "doc1" (stamp geo_US issued_doc) "9.9.9.9").
  - reflexivity.
  - reflexivity.
  - split; [reflexivity | discriminate].
  - reflexivity.
  - left. vm_compute. discriminate.
Defined.

Lemma end_redeems P request token st id d ip reward owner u balance :
  where_token (tokens st) token = Some (id, d) →
  d !! "status" = Some (VStr "pending") →
  origin_is request ip →
  ip_status (ip_api P ip) = "success" →
  d !! "initial_ip" = Some (VStr (ip_query (ip_api P ip))) →
  d !! "initial_country" = Some (VStr (ip_country (ip_api P ip))) →
  d !! "token_reward" = Some (VNum reward) →
  d !! "userId" = Some (VStr owner) →
  users st !! owner = Some u →
  u !! "balance" = Some (VNum balance) →
  checkpoint_end P request token st
  = (Ok (Credited reward),
     redeemed_state st token id d ip reward owner u balance).
Proof.
  intros Hq Hs [Hh Hip] Hgeo Haddr Hregion Hreward Howner Hu Hbal.
  pose proof (where_token_first_match _ _ _ _ Hq) as (Hl & _).
  run. rewrite Hq. run. rewrite Hs. run. simpl. rewrite Hh.
  destruct ip as [| a ip]; [done |]. run. rewrite Hgeo. simpl.
  rewrite Haddr, Hregion. simpl. rewrite !String.eqb_refl. simpl.
  rewrite Hreward. run. rewrite Hl. run. rewrite Howner. run. rewrite Hu.
  rewrite apply_update_set, (apply_update_increment _ _ balance) by done.
  by rewrite <- !app_assoc.
Qed.

(** C3 as worded fails: the owner of the sample token has no record in
    [orphan_store]; the end call marks the token used and raises, it credits
    nobody and answers no amount. *)
Lemma end_on_match_without_owner_record : ¬ end_on_match_credits.
Proof.
  intros Hclaim.
  destruct (Hclaim providers (from_ip "1.2.3.4") "t1" orphan_store "doc1"
              (stamp geo_US issued_doc) "1.2.3.4" 7.5%Q "u1")
    as (st' & Hrun & _).
  - split; reflexivity.
  - split; [reflexivity | discriminate].
  - reflexivity.
  - split; reflexivity.
  - reflexivity.
  - reflexivity.
  - assert (checkpoint_end providers (from_ip "1.2.3.4") "t1" orphan_store
            = (Raised (NotFound "u1"),
               marked_used orphan_store "t1" "doc1" (stamp geo_US issued_doc)
                 "1.2.3.4" [UsersUpdate "u1" {["balance" := Increment 7.5]}]))
      as Hraised by (vm_compute; reflexivity).
    rewrite Hraised in Hrun. discriminate Hrun.
Qed.

(** C3, as the handler has it: an end call on a pending token whose resolved
    address and region both equal the recorded ones, whose document records
    a numeric reward and names an owner that has a record with a numeric
    balance, sets the status to [used], adds to the owner's balance exactly
    the reward recorded on the token, and answers with that amount. Nothing
    else is written. *)
Theorem end_credits_recorded_reward P request token st id d ip reward owner u balance :
  where_token (tokens st) token = Some (id, d) →
  d !! "status" = Some (VStr "pending") →
  origin_is request ip →
  ip_status (ip_api P ip) = "success" →
  d !! "initial_ip" = Some (VStr (ip_query (ip_api P ip))) →
  d !! "initial_country" = Some (VStr (ip_country (ip_api P ip))) →
  d !! "token_reward" = Some (VNum reward) →
  d !! "userId" = Some (VStr owner) →
  users st !! owner = Some u →
  u !! "balance" = Some (VNum balance) →
  checkpoint_end P request token st
  = (Ok (Credited reward),
     {| tokens := <[id := <["status" := VStr "used"]> d]> (tokens st);
        users := <[owner := <["balance" := VNum (balance + reward)]> u]> (users st);
        calls := calls st ++
                 [TokensQuery token; GeoLookup ip;
                  TokensUpdate id {["status" := SetTo (VStr "used")]};
                  UsersUpdate owner {["balance" := Increment reward]}] |}).
Proof. apply end_redeems. Qed.

Lemma end_credits_recorded_reward_witness :
  checkpoint_end providers (from_ip "1.2.3.4") "t1" started_store
  = (Ok (Credited 7.5),
     {| tokens := <["doc1" := <["status" := VStr "used"]> (stamp geo_US issued_doc)]>
                    (tokens started_store);
        users := <["u1" := <["balance" := VNum (0 + 7.5)]> {["balance" := VNum 0]}]>
                   (users started_store);
        calls := calls started_store ++
                 [TokensQuery "t1"; GeoLookup "1.2.3.4";
                  TokensUpdate "doc1" {["status" := SetTo (VStr "used")]};
                  UsersUpdate "u1" {["balance" := Increment 7.5]}] |}).
Proof.
  apply (end_credits_recorded_reward providers (from_ip "1.2.3.4") "t1"
           started_store "doc1" (stamp geo_US issued_doc) "1.2.3.4" 7.5%Q "u1"
           {["balance" := VNum 0]} 0%Q).
  - reflexivity.
  - reflexivity.
  - split; [reflexivity | discriminate].
  - reflexivity.
  - reflexivity.
  - reflexivity.
  - reflexivity.
  - reflexivity.
  - reflexivity.
  - reflexivity.
Defined.

(** ** [checkpoint_start] *)

Lemma apply_update_stamp (info : ip_info) (d : doc) :
  apply_update (stamp_data info) d = stamp info d.
Proof.
  apply map_eq. intros i. unfold apply_update, stamp_data, stamp.
  rewrite lookup_merge.
  destruct (decide ("initial_ip" = i)) as [<- | H1].
  { rewrite !lookup_insert_eq. by destruct (d !! "initial_ip"). }
  rewrite !(lookup_insert_ne _ "initial_ip") by done.
  destruct (decide ("initial_country" = i)) as [<- | H2].
  { rewrite !lookup_insert_eq. by destruct (d !! "initial_country"). }
  rewrite !(lookup_insert_ne _ "initial_country") by done.
  destruct (decide ("token_reward" = i)) as [<- | H3].
  { rewrite lookup_singleton_eq, lookup_insert_eq. by destruct (d !! "token_reward"). }
  rewrite lookup_singleton_ne, lookup_insert_ne by done. by destruct (d !! i).
Qed.

Lemma stamp_stamped_only (info : ip_info) (d : doc) :
  stamped_only info d (stamp info d).
Proof.
  unfold stamped_only, stamp. repeat split.
  - by rewrite lookup_insert_eq.
  - rewrite lookup_insert_ne by done. by rewrite lookup_insert_eq.
  - do 2 (rewrite lookup_insert_ne by done). by rewrite lookup_insert_eq.
  - by do 3 (rewrite lookup_insert_ne by done).
  - intros field ? ? ?. by do 3 (rewrite lookup_insert_ne by done).
Qed.

Lemma shorten_cases (r : shrinkme_reply) :
  shortening_fails r ∨ ∃ link, shortened r link.
Proof.
  destruct r as [e | status [link |] error]; simpl; auto.
  destruct (decide (status = Some "success")) as [-> | Hne]; [| auto].
  right. exists link, error. done.
Qed.

Lemma shorten_ok P long_url st link :
  shortened (shrinkme P long_url) link →
  shorten_with_shrinkme P long_url st
  = (Ok link, after_calls st [Shorten long_url]).
Proof. intros [error Hr]. run. by rewrite Hr. Qed.

Lemma shorten_fail P long_url st :
  shortening_fails (shrinkme P long_url) →
  ∃ e, shorten_with_shrinkme P long_url st
       = (Raised e, after_calls st [Shorten long_url]).
Proof.
  intros Hf. run. destruct (shrinkme P long_url) as [e | status link error].
  - eauto.
  - destruct Hf as [Hne | ->].
    + rewrite bool_decide_eq_false_2 by done. eauto.
    + case_bool_decide; eauto.
Qed.

(** Up to the link shortener: origin present, lookup successful, token known
    and not the reserved one. *)
Lemma start_reaches_shortener P request token st id d ip :
  origin_is request ip →
  ip_status (ip_api P ip) = "success" →
  token ≠ "ping-dummy-token" →
  where_token (tokens st) token = Some (id, d) →
  let info := ip_api P ip in
  (∀ link, shortened (shrinkme P (checkpoint_end_url token)) link →
     checkpoint_start P request token st
     = (Ok (Started (ip_query info) (ip_country info)
              (get_token_reward (ip_countryCode info)) link),
        stamped_state st ip token id info d)) ∧
  (shortening_fails (shrinkme P (checkpoint_end_url token)) →
     checkpoint_start P request token st
     = (Ok ShorteningFailed, stamped_state st ip token id info d)).
Proof.
  intros [Hh Hip] Hgeo Hping Hq.
  destruct ip as [| a ip]; [done |]. intros info.
  change (ip_status info = "success") in Hgeo.
  pose proof (where_token_first_match _ _ _ _ Hq) as (Hl & _).
  apply String.eqb_neq in Hping.
  assert (∀ r : result string * state,
            r = shorten_with_shrinkme P (checkpoint_end_url token)
                  {| tokens := <[id := stamp info d]> (tokens st);
                     users := users st;
                     calls := (calls st ++ [GeoLookup (String a ip)]) ++ [TokensQuery token]
                              ++ [TokensUpdate id (stamp_data info)] |} →
            checkpoint_start P request token st
            = (Ok match r.1 with
                  | Ok link => Started (ip_query info) (ip_country info)
                                 (get_token_reward (ip_countryCode info)) link
                  | Raised _ => ShorteningFailed
                  end, r.2)) as Hrun.
  { intros r ->.
    unfold checkpoint_start. rewrite Hh.
    unfold get_ip_info, tokens_where_token_first, tokens_update, try_except, bind,
      record, ret. cbn [tokens users calls fst snd].
    fold info. rewrite Hgeo, String.eqb_refl. cbn [negb]. cbv beta iota.
    rewrite Hping. cbn [tokens users calls]. rewrite Hq. cbv beta iota.
    cbn [tokens users calls]. rewrite Hl. cbv beta iota.
    fold (stamp_data info). rewrite apply_update_stamp.
    fold (checkpoint_end_url token). rewrite <- !app_assoc.
    by destruct (shorten_with_shrinkme _ _ _) as [[link | e] st']. }
  split.
  - intros link Hok.
    erewrite Hrun; [| reflexivity]. rewrite (shorten_ok _ _ _ link) by done.
    unfold stamped_state, after_calls. simpl. by rewrite <- !app_assoc.
  - intros Hf. erewrite Hrun; [| reflexivity].
    destruct (shorten_fail P (checkpoint_end_url token)
                {| tokens := <[id := stamp info d]> (tokens st);
                   users := users st;
                   calls := (calls st ++ [GeoLookup (String a ip)]) ++ [TokensQuery token]
                            ++ [TokensUpdate id (stamp_data info)] |} Hf)
      as [e ->].
    unfold stamped_state, after_calls. simpl. by rewrite <- !app_assoc.
Qed.

Lemma origin_cases (request : Request) :
  origin_absent request ∨ ∃ ip, origin_is request ip.
Proof.
  unfold origin_absent, origin_is.
  destruct (headers request !! "cf-connecting-ip") as [[| a ip] |]; eauto.
Qed.

Lemma start_without_origin P request token st :
  origin_absent request →
  checkpoint_start P request token st = (Ok NoOrigin, st).
Proof. intros [H | H]; unfold checkpoint_start; by rewrite H. Qed.

Lemma start_before_token P request token st ip :
  origin_is request ip →
  ip_status (ip_api P ip) ≠ "success" ∨ token = "ping-dummy-token" →
  checkpoint_start P request token st
  = (Ok (if String.eqb (ip_status (ip_api P ip)) "success" then PingReceived
         else GeoLookupFailed (default "Unknown error" (ip_message (ip_api P ip)))),
     after_calls st [GeoLookup ip]).
Proof.
  intros [Hh Hip] Hcase. destruct ip as [| a ip]; [done |].
  unfold checkpoint_start. rewrite Hh. run.
  destruct (String.eqb_spec (ip_status (ip_api P (String a ip))) "success")
    as [Hs | Hs]; cbn [negb]; [| done].
  destruct Hcase as [? | ->]; done.
Qed.

Lemma start_token_unknown P request token st ip :
  origin_is request ip →
  ip_status (ip_api P ip) = "success" →
  token ≠ "ping-dummy-token" →
  where_token (tokens st) token = None →
  checkpoint_start P request token st
  = (Ok StartTokenNotFound, after_calls st [GeoLookup ip; TokensQuery token]).
Proof.
  intros [Hh Hip] Hgeo Hping%String.eqb_neq Hq.
  destruct ip as [| a ip]; [done |].
  unfold checkpoint_start. rewrite Hh. run.
  rewrite Hgeo, String.eqb_refl. cbn [negb]. rewrite Hping. run. rewrite Hq.
  by rewrite <- app_assoc.
Qed.

Lemma start_outcome_total P request token st :
  start_outcome P request token st
    (checkpoint_start P request token st).1
    (checkpoint_start P request token st).2.
Proof.
  destruct (origin_cases request) as [Habs | [ip Hip]].
  { rewrite start_without_origin by done. by constructor. }
  destruct (String.eqb_spec (ip_status (ip_api P ip)) "success") as [Hs | Hs].
  2:{ rewrite (start_before_token _ _ _ _ ip) by auto.
      apply String.eqb_neq in Hs as Hs'. rewrite Hs'. by constructor. }
  destruct (decide (token = "ping-dummy-token")) as [Hp | Hp].
  { rewrite (start_before_token _ _ _ _ ip) by auto.
    rewrite Hs, String.eqb_refl. by constructor. }
  destruct (where_token (tokens st) token) as [[id d] |] eqn:Hq.
  2:{ rewrite (start_token_unknown _ _ _ _ ip) by done. by constructor. }
  destruct (start_reaches_shortener P request token st id d ip) as [Hok Hfail];
    try done.
  destruct (shorten_cases (shrinkme P (checkpoint_end_url token)))
    as [Hf | [link Hl]].
  - rewrite Hfail by done. by constructor.
  - rewrite (Hok link) by done. by constructor.
Qed.

(** The first scenario of the specification: [start] for [t1] from 1.2.3.4
    resolves to the United States (rate 11, reward 7.5) and stamps the token;
    [end] from the same address then credits 7.5 to [u1]. *)
Example start_stamps_issued_token :
  checkpoint_start providers (from_ip "1.2.3.4") "t1" issued_store
  = (Ok (Started "1.2.3.4" "United States" 7.5 "https://shrinkme.io/x"),
     stamped_state issued_store "1.2.3.4" "t1" "doc1" geo_US issued_doc) ∧
  tokens (stamped_state issued_store "1.2.3.4" "t1" "doc1" geo_US issued_doc)
  = tokens started_store.
Proof. split; vm_compute; reflexivity. Qed.

Example start_then_end :
  (call1 <- checkpoint_start providers (from_ip "1.2.3.4") "t1" ;;
   call2 <- checkpoint_end providers (from_ip "1.2.3.4") "t1" ;;
   ret (call1, call2)) issued_store
  = (Ok (Started "1.2.3.4" "United States" 7.5 "https://shrinkme.io/x",
         Credited 7.5),
     redeemed_state
       (stamped_state issued_store "1.2.3.4" "t1" "doc1" geo_US issued_doc)
       "t1" "doc1" (stamp geo_US issued_doc) "1.2.3.4" 7.5 "u1"
       {["balance" := VNum 0]} 0).
Proof. vm_compute. reflexivity. Qed.



(** C9: when the link shortener fails during start, the caller gets the
    [ShorteningFailed] error (status 500), and the token document keeps the
    address, region and reward that were stamped just before: the stamp is
    not rolled back. *)
Theorem start_shortening_failed P request token st id d ip :
  origin_is request ip →
  ip_status (ip_api P ip) = "success" →
  token ≠ "ping-dummy-token" →
  where_token (tokens st) token = Some (id, d) →
  shortening_fails (shrinkme P (checkpoint_end_url token)) →
  ∃ st',
    checkpoint_start P request token st = (Ok ShorteningFailed, st') ∧
    status_code ShorteningFailed = 500%Z ∧
    tokens st' !! id = Some (stamp (ip_api P ip) d) ∧
    stamped_only (ip_api P ip) d (stamp (ip_api P ip) d) ∧
    users st' = users st.
Proof.
  intros Hip Hgeo Hping Hq Hfail.
  exists (stamped_state st ip token id (ip_api P ip) d).
  split; [by apply start_reaches_shortener |].
  split; [done |]. split; [apply lookup_insert_eq |].
  split; [apply stamp_stamped_only | done].
Qed.

Lemma start_shortening_failed_witness :
  ∃ st',
    checkpoint_start providers_without_shortener (from_ip "1.2.3.4") "t1"
      issued_store = (Ok ShorteningFailed, st') ∧
    status_code ShorteningFailed = 500%Z ∧
    tokens st' !! "doc1" = Some (stamp geo_US issued_doc) ∧
    stamped_only geo_US issued_doc (stamp geo_US issued_doc) ∧
    users st' = users issued_store.
Proof.
  apply (start_shortening_failed providers_without_shortener
           (from_ip "1.2.3.4") "t1" issued_store "doc1" issued_doc "1.2.3.4").
  - split; [reflexivity | discriminate].
  - reflexivity.
  - discriminate.
  - reflexivity.
  - exact I.
Defined.

(** C10: for the reserved token [ping-dummy-token], once the origin is
    resolved, start answers with a success page (status 200) and touches no
    record: the only call it makes is the address lookup, and both
    collections are as before, whatever they contain. *)
Theorem start_ping_bypass P request st ip :
  origin_is request ip →
  ip_status (ip_api P ip) = "success" →
  checkpoint_start P request "ping-dummy-token" st
  = (Ok PingReceived, after_calls st [GeoLookup ip]) ∧
  status_code PingReceived = 200%Z.
Proof.
  intros Hip Hgeo. split; [| done].
  rewrite (start_before_token _ _ _ _ ip) by auto.
  by rewrite Hgeo, String.eqb_refl.
Qed.

Lemma start_ping_bypass_witness :
  checkpoint_start providers (from_ip "1.2.3.4") "ping-dummy-token" ping_store
  = (Ok PingReceived, after_calls ping_store [GeoLookup "1.2.3.4"]) ∧
  status_code PingReceived = 200%Z.
Proof.
  apply (start_ping_bypass providers (from_ip "1.2.3.4") ping_store "1.2.3.4").
  - split; [reflexivity | discriminate].
  - reflexivity.
Defined.

(** ** A missing origin *)

(** [checkpoint_end] queries the token and checks its status before it looks
    at the origin header: without an origin an unknown token is still
    reported as unknown. *)
Lemma end_queries_token_before_origin :
  ¬ rejected_before_any_lookup checkpoint_end.
Proof.
  intros Hclaim.
  assert (origin_absent no_origin) as Habs by (by left).
  specialize (Hclaim providers no_origin "t0" issued_store Habs).
  assert ((checkpoint_end providers no_origin "t0" issued_store).1
          = Ok TokenNotFound) as Hrun by reflexivity.
  rewrite Hclaim in Hrun. discriminate Hrun.
Qed.

Lemma end_without_origin P request token st id d :
  origin_absent request →
  where_token (tokens st) token = Some (id, d) →
  d !! "status" = Some (VStr "pending") →
  checkpoint_end P request token st
  = (Ok NoOrigin, after_calls st [TokensQuery token]).
Proof.
  intros Habs Hq Hs. run. rewrite Hq. run. rewrite Hs. run. simpl.
  by destruct Habs as [-> | ->].
Qed.

Lemma end_token_unknown P request token st :
  where_token (tokens st) token = None →
  checkpoint_end P request token st
  = (Ok TokenNotFound, after_calls st [TokensQuery token]).
Proof. intros Hq. run. by rewrite Hq. Qed.

(** C7, as the handlers have it: without an origin, start answers [NoOrigin]
    before any call to the address lookup or to the store, and writes
    nothing. End never reaches the address lookup and writes nothing either,
    but it has queried the token first: it answers [NoOrigin] for a pending
    token, [TokenNotFound] for an unknown one, and [TokenAlreadyUsed] for one
    that is not pending. *)
Theorem origin_absent_rejected P request token st :
  origin_absent request →
  checkpoint_start P request token st = (Ok NoOrigin, st) ∧
  ∃ r, checkpoint_end P request token st
       = (r, after_calls st [TokensQuery token]) ∧
       (where_token (tokens st) token = None → r = Ok TokenNotFound) ∧
       (∀ id d, where_token (tokens st) token = Some (id, d) →
                d !! "status" = Some (VStr "pending") → r = Ok NoOrigin) ∧
       (∀ id d s, where_token (tokens st) token = Some (id, d) →
                  d !! "status" = Some s → s ≠ VStr "pending" →
                  r = Ok TokenAlreadyUsed).
Proof.
  intros Habs. split; [by apply start_without_origin |].
  destruct (where_token (tokens st) token) as [[id d] |] eqn:Hq.
  - destruct (d !! "status") as [s |] eqn:Hs.
    + destruct (status_cases s) as [-> | Hne].
      * exists (Ok NoOrigin). split; [by eapply end_without_origin |].
        split; [done |]. split; [done |].
        intros id' d' s' [= <- <-]. congruence.
      * exists (Ok TokenAlreadyUsed). split; [by eapply end_not_pending |].
        split; [done |]. split; [| done].
        intros id' d' [= <- <-]. congruence.
    + exists (Raised (KeyError "status")). split.
      * run. rewrite Hq. run. by rewrite Hs.
      * split; [done |]. split; intros *; intros [= <- <-]; congruence.
  - exists (Ok TokenNotFound). split; [by apply end_token_unknown |].
    split; [done |]. split; intros; congruence.
Qed.

Lemma origin_absent_rejected_witness :
  checkpoint_start providers no_origin "t1" issued_store
  = (Ok NoOrigin, issued_store) ∧
  checkpoint_end providers no_origin "t1" issued_store
  = (Ok NoOrigin, after_calls issued_store [TokensQuery "t1"]).
Proof.
  destruct (origin_absent_rejected providers no_origin "t1" issued_store)
    as [Hstart (r & Hend & _ & Hpending & _)].
  - left. reflexivity.
  - split; [exact Hstart |]. rewrite Hend. f_equal.
    apply (Hpending "doc1" issued_doc); reflexivity.
Defined.

(** ** Every outcome of [checkpoint_end] *)

(** A pending token and a present origin take the call to its suspension. *)
Lemma end_reaches_await P request token st id d ip :
  pending_token st token id d →
  origin_is request ip →
  end_until_await P request token st
  = (Ok (inr {| token_doc_id := id; token_data := d; reply := ip_api P ip |}),
     after_calls st [TokensQuery token; GeoLookup ip]).
Proof.
  intros [Hq Hs] [Hh Hip]. destruct ip as [| a ip]; [done |].
  run. rewrite Hq. run. rewrite Hs. run. simpl. rewrite Hh. run.
  by rewrite <- app_assoc.
Qed.

Lemma origin_matches_dec (d : doc) (info : ip_info) :
  origin_matches d info ∨ ¬ origin_matches d info.
Proof.
  unfold origin_matches.
  destruct (str_eq (ip_query info) (d !! "initial_ip")) eqn:E1;
    [apply str_eq_true in E1 | apply str_eq_false in E1];
    (destruct (str_eq (ip_country info) (d !! "initial_country")) eqn:E2;
     [apply str_eq_true in E2 | apply str_eq_false in E2]);
    tauto.
Qed.

Lemma end_outcome_total P request token st :
  end_outcome P request token st
    (checkpoint_end P request token st).1
    (checkpoint_end P request token st).2.
Proof.
  destruct (where_token (tokens st) token) as [[id d] |] eqn:Hq.
  2:{ rewrite end_token_unknown by done. by constructor. }
  pose proof (where_token_first_match _ _ _ _ Hq) as (Hl & _).
  destruct (d !! "status") as [s |] eqn:Hs.
  2:{ assert (checkpoint_end P request token st
              = (Raised (KeyError "status"), after_calls st [TokensQuery token]))
        as -> by (run; rewrite Hq; run; by rewrite Hs).
      by eapply end_no_status. }
  destruct (status_cases s) as [-> | Hne].
  2:{ rewrite (end_not_pending _ _ _ _ id d s) by done. by eapply end_already_used. }
  assert (pending_token st token id d) as Hp by done.
  destruct (origin_cases request) as [Habs | [ip Hip]].
  { rewrite (end_without_origin _ _ _ _ id d) by done. by eapply end_no_origin. }
  unfold checkpoint_end, bind. rewrite (end_reaches_await _ _ _ _ id d ip) by done.
  unfold end_from_await. cbn [reply token_data token_doc_id].
  destruct (String.eqb_spec (ip_status (ip_api P ip)) "success") as [Hgeo | Hgeo];
    cbn [negb].
  2:{ by eapply end_geo_failed. }
  destruct (origin_matches_dec d (ip_api P ip)) as [[Ha Hr] | Hno].
  2:{ assert (negb (str_eq (ip_query (ip_api P ip)) (d !! "initial_ip"))
              || negb (str_eq (ip_country (ip_api P ip)) (d !! "initial_country"))
              = true) as ->.
      { apply orb_true_iff. rewrite !negb_true_iff, !str_eq_false.
        unfold origin_matches in Hno.
        destruct (str_eq (ip_query (ip_api P ip)) (d !! "initial_ip")) eqn:E.
        - apply str_eq_true in E. right. intros E'. tauto.
        - apply str_eq_false in E. by left. }
      by eapply end_mismatch. }
  assert (str_eq (ip_query (ip_api P ip)) (d !! "initial_ip") = true) as ->
    by (by apply str_eq_true).
  assert (str_eq (ip_country (ip_api P ip)) (d !! "initial_country") = true) as ->
    by (by apply str_eq_true).
  cbn [negb orb]. run.
  destruct (d !! "token_reward") as [v |] eqn:Hv; run.
  2:{ by eapply end_no_reward. }
  rewrite Hl. rewrite apply_update_set.
  destruct (d !! "userId") as [o |] eqn:Ho; run.
  2:{ rewrite <- app_assoc. eapply (end_no_owner _ _ _ _ id d ip v); done. }
  destruct o as [owner | n].
  2:{ rewrite <- app_assoc. by eapply (end_bad_owner _ _ _ _ id d ip v n). }
  destruct v as [s | reward].
  { rewrite <- app_assoc. by eapply (end_bad_reward _ _ _ _ id d ip s owner). }
  run. destruct (users st !! owner) as [u |] eqn:Hu; run; rewrite <- !app_assoc.
  - by eapply end_credited.
  - by eapply end_owner_missing.
Qed.

(** ** Tokens that were never started *)

Lemma issued_store_as_issued : as_issued issued_store.
Proof.
  intros id d Hl. unfold issued_store in Hl. cbn [tokens] in Hl.
  apply lookup_singleton_Some in Hl as [<- <-]. by vm_compute.
Qed.

(** An issued token that was never started is found by end; with a resolved
    origin the call fails on the comparison with the missing stamp. *)
Lemma end_finds_unstarted_token :
  ¬ end_of_unstarted_token_not_found.
Proof.
  intros Hclaim.
  specialize (Hclaim issued_store [] "t1" providers (from_ip "1.2.3.4")
                issued_store_as_issued (Forall_nil_2 _)).
  assert ((checkpoint_end providers (from_ip "1.2.3.4") "t1"
             (serve_all [] issued_store).2).1
          = Ok OriginMismatch) as Hrun by reflexivity.
  rewrite Hrun in Hclaim. discriminate Hclaim.
Qed.

Lemma try_except_state {A} (m : M A) (st : state) :
  (try_except m st).2 = (m st).2.
Proof. unfold try_except. by destruct (m st). Qed.

Lemma has_token_other token token' (d : doc) :
  has_token token' d = true → token' ≠ token → has_token token d = false.
Proof.
  unfold has_token. destruct (d !! "token") as [[s | n] |]; try done.
  intros ->%String.eqb_eq Hne. by apply String.eqb_neq.
Qed.

Lemma has_token_stamp token (info : ip_info) (d : doc) :
  has_token token (stamp info d) = has_token token d.
Proof.
  unfold has_token, stamp. by do 3 (rewrite lookup_insert_ne by done).
Qed.

Lemma untouched_same_tokens token (st st' : state) :
  tokens st' = tokens st → untouched token st st'.
Proof. intros E id d _. by rewrite E. Qed.

Lemma untouched_trans token (st1 st2 st3 : state) :
  untouched token st1 st2 → untouched token st2 st3 → untouched token st1 st3.
Proof. intros H12 H23 id d Ht. by rewrite (H23 id d Ht), (H12 id d Ht). Qed.

Lemma untouched_insert token (st st' : state) id (d d' : doc) :
  tokens st !! id = Some d →
  has_token token d = false →
  has_token token d' = false →
  tokens st' = <[id := d']> (tokens st) →
  untouched token st st'.
Proof.
  intros Hl Hd Hd' E id0 d0 Ht. rewrite E.
  destruct (decide (id = id0)) as [<- | Hne].
  - rewrite lookup_insert_eq, Hl. split; intros [= <-]; congruence.
  - by rewrite lookup_insert_ne.
Qed.

Lemma untouched_where_token token (st st' : state) :
  untouched token st st' →
  where_token (tokens st') token = where_token (tokens st) token.
Proof.
  intros Hun.
  assert (∀ a b : state, untouched token a b →
            ∀ id d, first_match (tokens a) token id d →
                    first_match (tokens b) token id d) as Hmove.
  { intros a b Hab id d (Hl & Ht & Hmin). repeat split; [by apply Hab | done |].
    intros id' d' Hl' Ht'. apply (Hmin id' d'); [by apply Hab | done]. }
  assert (untouched token st' st) as Hun'.
  { intros id d Ht. by rewrite (Hun id d Ht). }
  destruct (where_token (tokens st) token) as [[id d] |] eqn:Hq.
  - apply first_match_where_token, (Hmove st st' Hun),
      where_token_first_match, Hq.
  - destruct (where_token (tokens st') token) as [[id d] |] eqn:Hq'; [| done].
    apply where_token_first_match, (Hmove st' st Hun'),
      first_match_where_token in Hq'. congruence.
Qed.

Lemma start_untouched P request token' token st :
  token' ≠ token →
  untouched token st (checkpoint_start P request token' st).2.
Proof.
  intros Hne.
  destruct (start_outcome_total P request token' st);
    try (by apply untouched_same_tokens);
    match goal with
    | Hq : where_token _ _ = Some (?id, ?d) |- _ =>
        pose proof (where_token_first_match _ _ _ _ Hq) as (Hl & Ht & _);
        eapply (untouched_insert _ _ _ id d); [done | | | done]
    end;
    rewrite ?has_token_stamp; by eapply has_token_other.
Qed.

(** What [end] may write to the token collection. *)
Lemma end_outcome_tokens P request token st r st' :
  end_outcome P request token st r st' →
  tokens st' = tokens st ∨
  ∃ id d ip,
    where_token (tokens st) token = Some (id, d) ∧
    origin_matches d (ip_api P ip) ∧
    tokens st' = <[id := <["status" := VStr "used"]> d]> (tokens st).
Proof.
  destruct 1; try (by left);
    match goal with
    | Hp : pending_token _ _ ?id ?d, Hm : origin_matches ?d (ip_api _ ?ip) |- _ =>
        destruct Hp; right; by exists id, d, ip
    end.
Qed.

(** On a token without stamp, [end] writes nothing. *)
Lemma end_outcome_unstamped P request token st r st' :
  end_outcome P request token st r st' →
  (∀ id d, where_token (tokens st) token = Some (id, d) →
           d !! "initial_ip" = None) →
  ∃ es, st' = after_calls st es.
Proof.
  intros Hout Hnone. destruct Hout; try (by eexists);
    match goal with
    | Hp : pending_token _ _ ?id ?d, Hm : origin_matches ?d _ |- _ =>
        destruct Hp as [Hq _]; destruct Hm as [Hm _];
        rewrite (Hnone id d Hq) in Hm; done
    end.
Qed.

Lemma end_untouched P request token' token st st0 :
  as_issued st0 →
  untouched token st0 st →
  untouched token st (checkpoint_end P request token' st).2.
Proof.
  intros Hissued Hun.
  destruct (decide (token' = token)) as [-> | Hne].
  - destruct (end_outcome_unstamped _ _ _ _ _ _
                (end_outcome_total P request token st)) as [es ->].
    + intros id d (Hl & Ht & _)%where_token_first_match.
      apply (Hun id d Ht), Hissued in Hl. tauto.
    + by apply untouched_same_tokens.
  - destruct (end_outcome_tokens _ _ _ _ _ _
                (end_outcome_total P request token' st))
      as [E | (id & d & ip & Hq & _ & E)].
    + by apply untouched_same_tokens.
    + pose proof (where_token_first_match _ _ _ _ Hq) as (Hl & Ht & _).
      eapply (untouched_insert _ _ _ id d); [done | | | done].
      * by eapply has_token_other.
      * rewrite has_token_set_status. by eapply has_token_other.
Qed.

Lemma serve_all_cons_state (c : call) (history : list call) (st : state) :
  (serve_all (c :: history) st).2 = (serve_all history (serve c st).2).2.
Proof.
  cbn [serve_all]. unfold bind, ret.
  assert (∃ r st1, serve c st = (Ok r, st1)) as (r & st1 & ->).
  { destruct c as [P request token | P request token]; unfold serve, try_except.
    - destruct (checkpoint_start P request token st). eauto.
    - destruct (checkpoint_end P request token st). eauto. }
  cbn [snd]. by destruct (serve_all history st1) as [[rs | e] st2].
Qed.

(** The documents that carry a token stay as they were issued for as long
    as no start call names it. *)
Lemma serve_all_untouched (st0 : state) token (history : list call) (st : state) :
  as_issued st0 →
  untouched token st0 st →
  never_started token history →
  untouched token st0 (serve_all history st).2.
Proof.
  intros Hissued. revert st.
  induction history as [| c history IH]; intros st Hun Hnever; [done |].
  rewrite serve_all_cons_state.
  apply Forall_cons in Hnever as [Hc Hnever].
  apply IH; [| done].
  eapply untouched_trans; [done |].
  destruct c as [P request token' | P request token']; unfold serve;
    rewrite try_except_state.
  - by apply start_untouched.
  - by eapply end_untouched.
Qed.

(** End on a pending token that carries no stamped address. *)
Lemma end_unstamped_mismatch P request token st id d ip :
  where_token (tokens st) token = Some (id, d) →
  d !! "status" = Some (VStr "pending") →
  d !! "initial_ip" = None →
  origin_is request ip →
  ip_status (ip_api P ip) = "success" →
  checkpoint_end P request token st
  = (Ok OriginMismatch, after_calls st [TokensQuery token; GeoLookup ip]).
Proof.
  intros Hq Hs Hnone [Hh Hip] Hgeo.
  run. rewrite Hq. run. rewrite Hs. run. simpl. rewrite Hh.
  destruct ip as [| a ip]; [done |]. run. rewrite Hgeo, Hnone. simpl.
  by rewrite <- app_assoc.
Qed.

(** C2, as the handler has it: take a store of tokens as they were issued
    and any history of start and end calls in which start was never called
    on the token. An end call on that token then writes nothing. It is
    answered [TokenNotFound] when no stored document carries the token. When
    one does, the token is found, still pending and without stamp, and an
    end call whose origin resolves is answered [OriginMismatch]. *)
Theorem end_of_unstarted_token st history token P request :
  as_issued st →
  never_started token history →
  let st' := (serve_all history st).2 in
  (∃ es, (checkpoint_end P request token st').2 = after_calls st' es) ∧
  (where_token (tokens st) token = None →
   checkpoint_end P request token st'
   = (Ok TokenNotFound, after_calls st' [TokensQuery token])) ∧
  (∀ id d ip,
     where_token (tokens st) token = Some (id, d) →
     origin_is request ip →
     ip_status (ip_api P ip) = "success" →
     checkpoint_end P request token st'
     = (Ok OriginMismatch, after_calls st' [TokensQuery token; GeoLookup ip])).
Proof.
  intros Hissued Hnever st'.
  assert (untouched token st st') as Hun.
  { apply serve_all_untouched; [done | by apply untouched_same_tokens | done]. }
  pose proof (untouched_where_token _ _ _ Hun) as Hq'.
  assert (∀ id d, where_token (tokens st') token = Some (id, d) →
                  d !! "status" = Some (VStr "pending") ∧
                  d !! "initial_ip" = None) as Hfresh.
  { intros id d (Hl & Ht & _)%where_token_first_match.
    apply (Hun id d Ht), Hissued in Hl. tauto. }
  split; [| split].
  - apply (end_outcome_unstamped _ _ _ _ _ _
             (end_outcome_total P request token st')).
    intros id d Hq. by apply (Hfresh id d).
  - intros Hq. apply end_token_unknown. by rewrite Hq'.
  - intros id d ip Hq Hip Hgeo. rewrite <- Hq' in Hq.
    destruct (Hfresh id d Hq) as [Hs Hnone].
    by apply (end_unstamped_mismatch _ _ _ _ id d).
Qed.

Lemma two_tokens_store_as_issued : as_issued two_tokens_store.
Proof.
  intros id d Hl. unfold two_tokens_store in Hl. cbn [tokens] in Hl.
  apply lookup_insert_Some in Hl as [[<- <-] | [_ Hl]]; [by vm_compute |].
  apply lookup_singleton_Some in Hl as [<- <-]. by vm_compute.
Qed.

Lemma end_of_unstarted_token_witness :
  let history := [StartCall providers (from_ip "1.2.3.4") "t2";
                  EndCall providers (from_ip "1.2.3.4") "t2";
                  EndCall providers (from_ip "9.9.9.9") "t1"] in
  let st' := (serve_all history two_tokens_store).2 in
  checkpoint_end providers (from_ip "1.2.3.4") "t1" st'
  = (Ok OriginMismatch,
     after_calls st' [TokensQuery "t1"; GeoLookup "1.2.3.4"]).
Proof.
  intros history st'.
  destruct (end_of_unstarted_token two_tokens_store history "t1" providers
              (from_ip "1.2.3.4")) as (_ & _ & Hfound).
  - exact two_tokens_store_as_issued.
  - repeat constructor. discriminate.
  - apply (Hfound "doc1" issued_doc "1.2.3.4").
    + reflexivity.
    + split; [reflexivity | discriminate].
    + reflexivity.
Defined.

(** ** Concurrent end calls *)

(** Two calls that both pass the status check before either resumes from the
    address lookup are both credited. *)
Example two_ends_interleaved :
  let t := Arrived providers (from_ip "1.2.3.4") "t1" in
  ∃ st',
    event_loop [0; 1; 0; 1]%nat [t; t] started_store
    = (Ok [Finished (Ok (Credited 7.5)); Finished (Ok (Credited 7.5))], st') ∧
    balance_of st' "u1" = Some (0 + 7.5 + 7.5)%Q ∧
    tokens st' !! "doc1" ≫= (.!! "status") = Some (VStr "used").
Proof.
  eexists. split; [vm_compute; reflexivity |]. split; reflexivity.
Qed.

(** The two writes of [end] are two calls to the store: when the owner has
    no record the second one is refused, after the first one has marked the
    token used. *)
Example end_without_owner_record :
  checkpoint_end providers (from_ip "1.2.3.4") "t1" orphan_store
  = (Raised (NotFound "u1"),
     marked_used orphan_store "t1" "doc1" (stamp geo_US issued_doc) "1.2.3.4"
       [UsersUpdate "u1" {["balance" := Increment 7.5]}]).
Proof. vm_compute. reflexivity. Qed.

(** C1 as worded fails: the schedule of [two_ends_interleaved] credits twice. *)
Lemma concurrent_ends_credit_twice : ¬ concurrent_ends_credit_once.
Proof.
  intros Hclaim.
  destruct (Hclaim providers (from_ip "1.2.3.4") "t1" started_store "doc1"
              (stamp geo_US issued_doc) "1.2.3.4" 7.5%Q "u1"
              {["balance" := VNum 0]} 0%Q 2%nat [0; 1; 0; 1]%nat
              [Finished (Ok (Credited 7.5)); Finished (Ok (Credited 7.5))]
              (event_loop [0; 1; 0; 1]%nat
                 (replicate 2 (Arrived providers (from_ip "1.2.3.4") "t1"))
                 started_store).2) as [Hcount _].
  - reflexivity.
  - reflexivity.
  - split; [reflexivity | discriminate].
  - reflexivity.
  - reflexivity.
  - reflexivity.
  - reflexivity.
  - reflexivity.
  - reflexivity.
  - reflexivity.
  - vm_compute. reflexivity.
  - reflexivity.
  - lia.
  - vm_compute in Hcount. discriminate Hcount.
Qed.

(** A call that is resumed as soon as it has suspended is [checkpoint_end]. *)
Lemma resume_at_once P request token st :
  (t <- resume (Arrived P request token) ;; resume t) st
  = (r <- try_except (checkpoint_end P request token) ;; ret (Finished r)) st.
Proof.
  unfold checkpoint_end, resume, try_except, bind, ret.
  by destruct (end_until_await P request token st) as [[[resp | fr] | e] st1].
Qed.

(** C1, as the handler has it: of [n + 1] end calls on one pending token with
    the recorded origin that are served one after the other, each to
    completion, the first marks the token used and credits the reward, in
    one turn and in this order, and all the others are answered
    [TokenAlreadyUsed] and write nothing: one transition, one credit. *)
Theorem serial_ends_credit_once P request token st id d ip reward owner u balance n :
  where_token (tokens st) token = Some (id, d) →
  d !! "status" = Some (VStr "pending") →
  origin_is request ip →
  ip_status (ip_api P ip) = "success" →
  d !! "initial_ip" = Some (VStr (ip_query (ip_api P ip))) →
  d !! "initial_country" = Some (VStr (ip_country (ip_api P ip))) →
  d !! "token_reward" = Some (VNum reward) →
  d !! "userId" = Some (VStr owner) →
  users st !! owner = Some u →
  u !! "balance" = Some (VNum balance) →
  serve_end (replicate (S n) (P, request)) token st
  = (Ok (Ok (Credited reward) :: replicate n (Ok TokenAlreadyUsed)),
     {| tokens := <[id := <["status" := VStr "used"]> d]> (tokens st);
        users := <[owner := <["balance" := VNum (balance + reward)]> u]> (users st);
        calls := calls st ++
                 [TokensQuery token; GeoLookup ip;
                  TokensUpdate id {["status" := SetTo (VStr "used")]};
                  UsersUpdate owner {["balance" := Increment reward]}] ++
                 replicate n (TokensQuery token) |}).
Proof.
  intros Hq Hs Hip Hgeo Haddr Hregion Hreward Howner Hu Hbal.
  cbn [replicate serve_end]. unfold bind at 1, try_except at 1.
  rewrite (end_redeems P request token st id d ip reward owner u balance) by done.
  unfold bind at 1.
  rewrite (serve_end_not_pending _ token _ id (<["status" := VStr "used"]> d)
             (VStr "used")).
  - unfold ret, redeemed_state, after_calls. cbn [tokens users calls].
    by rewrite length_replicate, <- app_assoc.
  - unfold redeemed_state. cbn [tokens]. eapply where_token_insert; [done |].
    rewrite has_token_set_status.
    by apply where_token_first_match in Hq as (_ & ? & _).
  - by rewrite lookup_insert_eq.
  - done.
Qed.

Lemma serial_ends_credit_once_witness :
  serve_end (replicate 3 (providers, from_ip "1.2.3.4")) "t1" started_store
  = (Ok [Ok (Credited 7.5); Ok TokenAlreadyUsed; Ok TokenAlreadyUsed],
     {| tokens := <["doc1" := <["status" := VStr "used"]> (stamp geo_US issued_doc)]>
                    (tokens started_store);
        users := <["u1" := <["balance" := VNum (0 + 7.5)]> {["balance" := VNum 0]}]>
                   (users started_store);
        calls := calls started_store ++
                 [TokensQuery "t1"; GeoLookup "1.2.3.4";
                  TokensUpdate "doc1" {["status" := SetTo (VStr "used")]};
                  UsersUpdate "u1" {["balance" := Increment 7.5]}] ++
                 [TokensQuery "t1"; TokensQuery "t1"] |}).
Proof.
  apply (serial_ends_credit_once providers (from_ip "1.2.3.4") "t1"
           started_store "doc1" (stamp geo_US issued_doc) "1.2.3.4" 7.5%Q "u1"
           {["balance" := VNum 0]} 0%Q 2%nat).
  - reflexivity.
  - reflexivity.
  - split; [reflexivity | discriminate].
  - reflexivity.
  - reflexivity.
  - reflexivity.
  - reflexivity.
  - reflexivity.
  - reflexivity.
  - reflexivity.
Defined.

(** * Further properties of the handlers *)

(** ** [checkpoint_start]: what it never does *)

(** The state a start call leaves, once it has got as far as the update. *)
Lemma start_state_stamped P request token st id d ip :
  origin_is request ip →
  ip_status (ip_api P ip) = "success" →
  token ≠ "ping-dummy-token" →
  where_token (tokens st) token = Some (id, d) →
  (checkpoint_start P request token st).2
  = stamped_state st ip token id (ip_api P ip) d.
Proof.
  intros Hip Hgeo Hping Hq.
  destruct (start_reaches_shortener P request token st id d ip) as [Hok Hfail];
    try done.
  destruct (shorten_cases (shrinkme P (checkpoint_end_url token)))
    as [Hf | [link Hl]].
  - by rewrite Hfail.
  - by rewrite (Hok link).
Qed.

Lemma stamp_other_field (info : ip_info) (d : doc) field :
  field ≠ "initial_ip" → field ≠ "initial_country" → field ≠ "token_reward" →
  stamp info d !! field = d !! field.
Proof. intros. unfold stamp. by do 3 (rewrite lookup_insert_ne by done). Qed.

(** X2: whatever its outcome, [checkpoint_start] leaves the user collection as it
    was, creates and deletes no token document, and changes no field of any
    token document other than [initial_ip], [initial_country] and
    [token_reward]: status, token and owner are never written. *)
Theorem start_writes_only_stamp_fields P request token st :
  users (checkpoint_start P request token st).2 = users st ∧
  dom (tokens (checkpoint_start P request token st).2) = dom (tokens st) ∧
  ∀ id field,
    field ≠ "initial_ip" → field ≠ "initial_country" → field ≠ "token_reward" →
    tokens (checkpoint_start P request token st).2 !! id ≫= (.!! field)
    = tokens st !! id ≫= (.!! field).
Proof.
  destruct (start_outcome_total P request token st); try done;
    match goal with
    | Hq : where_token _ _ = Some (?id, ?d) |- _ =>
        pose proof (where_token_first_match _ _ _ _ Hq) as (Hl & _)
    end;
    (split; [done |]); cbn [tokens stamped_state];
    (split; [apply dom_insert_lookup_L; by eexists |]);
    intros id0 field ? ? ?;
    (destruct (decide (id = id0)) as [<- | ?];
     [rewrite lookup_insert_eq, Hl; cbn; by apply stamp_other_field
     | by rewrite lookup_insert_ne]).
Qed.

(** X3: for the reserved token the store is out of reach: whatever the origin
    header and whatever the address lookup answers, the state that
    [checkpoint_start] leaves is the one it found, with no call to the store
    and none to the link shortener. The only call it may have made is the
    address lookup. Nothing is said of the response. *)
Theorem start_ping_never_touches_store P request st :
  ∃ es,
    (checkpoint_start P request "ping-dummy-token" st).2 = after_calls st es ∧
    (es = [] ∨ ∃ ip, es = [GeoLookup ip]).
Proof.
  destruct (origin_cases request) as [Habs | [ip Hip]].
  - exists []. rewrite start_without_origin, after_calls_nil by done. auto.
  - exists [GeoLookup ip].
    rewrite (start_before_token _ _ _ _ ip) by auto. eauto.
Qed.

(** X4: a token that no document carries: after the address lookup start answers
    400 with the page of the invalid token; it has queried the token, written
    nothing, and has not asked for a short link. *)
Theorem start_on_unknown_token P request token st ip :
  origin_is request ip →
  ip_status (ip_api P ip) = "success" →
  token ≠ "ping-dummy-token" →
  where_token (tokens st) token = None →
  checkpoint_start P request token st
  = (Ok StartTokenNotFound, after_calls st [GeoLookup ip; TokensQuery token]) ∧
  status_code StartTokenNotFound = 400%Z.
Proof. intros. split; [by apply start_token_unknown | done]. Qed.

Lemma start_on_unknown_token_witness :
  checkpoint_start providers (from_ip "1.2.3.4") "t0" issued_store
  = (Ok StartTokenNotFound,
     after_calls issued_store [GeoLookup "1.2.3.4"; TokensQuery "t0"]) ∧
  status_code StartTokenNotFound = 400%Z.
Proof.
  apply (start_on_unknown_token providers (from_ip "1.2.3.4") "t0" issued_store
           "1.2.3.4").
  - split; [reflexivity | discriminate].
  - reflexivity.
  - discriminate.
  - reflexivity.
Defined.

(** ** A failed address lookup *)

Lemma end_geo_fails P request token st id d ip :
  pending_token st token id d →
  origin_is request ip →
  ip_status (ip_api P ip) ≠ "success" →
  checkpoint_end P request token st
  = (Ok (GeoLookupFailed (default "Unknown error" (ip_message (ip_api P ip)))),
     after_calls st [TokensQuery token; GeoLookup ip]).
Proof.
  intros Hp Hip Hgeo%String.eqb_neq.
  unfold checkpoint_end, bind. rewrite (end_reaches_await _ _ _ _ id d ip) by done.
  unfold end_from_await. cbn [reply]. by rewrite Hgeo.
Qed.

(** X5: when ip-api.com does not report success, both handlers answer 400 with
    the message of the provider, or with [Unknown error] when it sends none,
    and write nothing. Start does so before it looks at the token, be it
    unknown or reserved; end does so for a pending token. *)
Theorem geo_failure_writes_nothing P request token st ip :
  origin_is request ip →
  ip_status (ip_api P ip) ≠ "success" →
  let page := GeoLookupFailed (default "Unknown error" (ip_message (ip_api P ip))) in
  checkpoint_start P request token st
  = (Ok page, after_calls st [GeoLookup ip]) ∧
  (∀ id d, pending_token st token id d →
           checkpoint_end P request token st
           = (Ok page, after_calls st [TokensQuery token; GeoLookup ip])) ∧
  status_code page = 400%Z.
Proof.
  intros Hip Hgeo page. split; [| split; [| done]].
  - rewrite (start_before_token _ _ _ _ ip) by auto.
    apply String.eqb_neq in Hgeo. by rewrite Hgeo.
  - intros id d Hp. by apply (end_geo_fails _ _ _ _ id d).
Qed.

Lemma geo_failure_writes_nothing_witness :
  checkpoint_start providers (from_ip "0.0.0.0") "t1" issued_store
  = (Ok (GeoLookupFailed "invalid query"),
     after_calls issued_store [GeoLookup "0.0.0.0"]) ∧
  checkpoint_end providers (from_ip "0.0.0.0") "t1" issued_store
  = (Ok (GeoLookupFailed "invalid query"),
     after_calls issued_store [TokensQuery "t1"; GeoLookup "0.0.0.0"]).
Proof.
  destruct (geo_failure_writes_nothing providers (from_ip "0.0.0.0") "t1"
              issued_store "0.0.0.0") as (Hstart & Hend & _).
  - split; [reflexivity | discriminate].
  - discriminate.
  - split; [exact Hstart |].
    apply (Hend "doc1" issued_doc). split; reflexivity.
Defined.

(** ** How start and end compose *)

Lemma stamp_stamp (info1 info2 : ip_info) (d : doc) :
  stamp info2 (stamp info1 d) = stamp info2 d.
Proof.
  apply map_eq. intros field. unfold stamp.
  rewrite !lookup_insert. by repeat case_decide.
Qed.

(** X6: the last start wins: two start calls on one token, from any two origins
    that resolve, leave the token stamped with the address, region and reward
    of the second call alone, whatever the link shortener did; with the same
    origin twice the second call changes nothing in the token collection. *)
Theorem start_twice_keeps_last_stamp P1 request1 ip1 P2 request2 ip2 token st id d :
  token ≠ "ping-dummy-token" →
  where_token (tokens st) token = Some (id, d) →
  origin_is request1 ip1 →
  ip_status (ip_api P1 ip1) = "success" →
  origin_is request2 ip2 →
  ip_status (ip_api P2 ip2) = "success" →
  tokens (checkpoint_start P2 request2 token
            (checkpoint_start P1 request1 token st).2).2
  = <[id := stamp (ip_api P2 ip2) d]> (tokens st) ∧
  (ip_api P1 ip1 = ip_api P2 ip2 →
   tokens (checkpoint_start P2 request2 token
             (checkpoint_start P1 request1 token st).2).2
   = tokens (checkpoint_start P1 request1 token st).2).
Proof.
  intros Hping Hq Hip1 Hgeo1 Hip2 Hgeo2.
  rewrite (start_state_stamped P1 request1 token st id d ip1) by done.
  assert (where_token
            (tokens (stamped_state st ip1 token id (ip_api P1 ip1) d)) token
          = Some (id, stamp (ip_api P1 ip1) d)) as Hq1.
  { cbn [tokens stamped_state]. eapply where_token_insert; [done |].
    rewrite has_token_stamp.
    by apply where_token_first_match in Hq as (_ & ? & _). }
  rewrite (start_state_stamped P2 request2 token _ id
             (stamp (ip_api P1 ip1) d) ip2) by done.
  cbn [tokens stamped_state]. rewrite insert_insert_eq, stamp_stamp.
  split; [done |]. by intros ->.
Qed.

Lemma start_twice_keeps_last_stamp_witness :
  tokens (checkpoint_start providers (from_ip "9.9.9.9") "t1"
            (checkpoint_start providers (from_ip "1.2.3.4") "t1" issued_store).2).2
  = <["doc1" := stamp geo_DE issued_doc]> (tokens issued_store).
Proof.
  apply (start_twice_keeps_last_stamp providers (from_ip "1.2.3.4") "1.2.3.4"
           providers (from_ip "9.9.9.9") "9.9.9.9" "t1" issued_store "doc1"
           issued_doc).
  - discriminate.
  - reflexivity.
  - split; [reflexivity | discriminate].
  - reflexivity.
  - split; [reflexivity | discriminate].
  - reflexivity.
Defined.

(** X7: start, then end from the same origin: the owner is credited with the
    reward that the policy gives for the country code resolved at start, and
    the token is used. This holds whether or not the link shortener answered:
    the stamp of a start that ended in the 500 page redeems as well. *)
Theorem start_then_end_credits_policy_reward
  P request token st id d ip owner u balance :
  token ≠ "ping-dummy-token" →
  where_token (tokens st) token = Some (id, d) →
  d !! "status" = Some (VStr "pending") →
  d !! "userId" = Some (VStr owner) →
  users st !! owner = Some u →
  u !! "balance" = Some (VNum balance) →
  origin_is request ip →
  ip_status (ip_api P ip) = "success" →
  let reward := get_token_reward (ip_countryCode (ip_api P ip)) in
  let st1 := (checkpoint_start P request token st).2 in
  checkpoint_end P request token st1
  = (Ok (Credited reward),
     redeemed_state st1 token id (stamp (ip_api P ip) d) ip reward owner u balance).
Proof.
  intros Hping Hq Hs Howner Hu Hbal Hip Hgeo reward st1.
  assert (st1 = stamped_state st ip token id (ip_api P ip) d) as Est.
  { by apply start_state_stamped. }
  destruct (stamp_stamped_only (ip_api P ip) d) as (Ha & Hc & Hr & Hst & Hframe).
  apply end_redeems; rewrite ?Est; cbn [tokens users stamped_state]; try done.
  - eapply where_token_insert; [done |]. rewrite has_token_stamp.
    by apply where_token_first_match in Hq as (_ & ? & _).
  - by rewrite Hst.
  - by rewrite Hframe.
Qed.

Lemma start_then_end_credits_policy_reward_witness :
  checkpoint_end providers_without_shortener (from_ip "1.2.3.4") "t1"
    (checkpoint_start providers_without_shortener (from_ip "1.2.3.4") "t1"
       issued_store).2
  = (Ok (Credited 7.5),
     redeemed_state
       (checkpoint_start providers_without_shortener (from_ip "1.2.3.4") "t1"
          issued_store).2
       "t1" "doc1" (stamp geo_US issued_doc) "1.2.3.4" 7.5 "u1"
       {["balance" := VNum 0]} 0).
Proof.
  apply (start_then_end_credits_policy_reward providers_without_shortener
           (from_ip "1.2.3.4") "t1" issued_store "doc1" issued_doc "1.2.3.4"
           "u1" {["balance" := VNum 0]} 0%Q).
  - discriminate.
  - reflexivity.
  - reflexivity.
  - reflexivity.
  - reflexivity.
  - reflexivity.
  - split; [reflexivity | discriminate].
  - reflexivity.
Defined.

(** ** [checkpoint_end]: what it writes, and when *)

Lemma end_outcome_writes P request token st r st' :
  end_outcome P request token st r st' →
  (tokens st' = tokens st ∧ users st' = users st ∧
   ∀ reward, r ≠ Ok (Credited reward)) ∨
  ∃ id d ip,
    pending_token st token id d ∧ origin_is request ip ∧
    ip_status (ip_api P ip) = "success" ∧ origin_matches d (ip_api P ip) ∧
    tokens st' = <[id := <["status" := VStr "used"]> d]> (tokens st) ∧
    ((users st' = users st ∧ ∀ reward, r ≠ Ok (Credited reward)) ∨
     ∃ reward owner u,
       r = Ok (Credited reward) ∧
       d !! "token_reward" = Some (VNum reward) ∧
       d !! "userId" = Some (VStr owner) ∧
       users st !! owner = Some u ∧
       users st' = <[owner := apply_update {["balance" := Increment reward]} u]>
                     (users st)).
Proof.
  destruct 1; try (by left);
    right; exists id, d, ip; repeat (split; [done |]);
    try (by left); right; by exists reward, owner, u.
Qed.

(** X8: end marks a token used only behind the consistency check: either the
    token collection is as it was, or the queried token was pending, the
    origin resolved to the recorded address and region, and the one change
    is the status of that document, now [used]. *)
Theorem end_marks_used_only_on_match P request token st :
  tokens (checkpoint_end P request token st).2 = tokens st ∨
  ∃ id d ip,
    pending_token st token id d ∧ origin_is request ip ∧
    ip_status (ip_api P ip) = "success" ∧ origin_matches d (ip_api P ip) ∧
    tokens (checkpoint_end P request token st).2
    = <[id := <["status" := VStr "used"]> d]> (tokens st).
Proof.
  destruct (end_outcome_writes _ _ _ _ _ _ (end_outcome_total P request token st))
    as [(? & _) | (id & d & ip & ? & ? & ? & ? & ? & _)]; [by left |].
  right. by exists id, d, ip.
Qed.

(** X9: the success page is never answered for nothing: when end answers it with
    an amount, the token was pending with a matching origin, the amount is
    the reward recorded on the token, the token is now used, and the balance
    field of the owner named on the token has been incremented by that amount;
    no other user record is written. *)
Theorem end_success_means_credited P request token st reward :
  (checkpoint_end P request token st).1 = Ok (Credited reward) →
  ∃ id d ip owner u,
    pending_token st token id d ∧ origin_is request ip ∧
    origin_matches d (ip_api P ip) ∧
    d !! "token_reward" = Some (VNum reward) ∧
    d !! "userId" = Some (VStr owner) ∧
    users st !! owner = Some u ∧
    tokens (checkpoint_end P request token st).2
    = <[id := <["status" := VStr "used"]> d]> (tokens st) ∧
    users (checkpoint_end P request token st).2
    = <[owner := apply_update {["balance" := Increment reward]} u]> (users st).
Proof.
  intros Hok.
  destruct (end_outcome_writes _ _ _ _ _ _ (end_outcome_total P request token st))
    as [(_ & _ & Hno) | (id & d & ip & ? & ? & ? & ? & ? & Hu)].
  { by destruct (Hno reward). }
  destruct Hu as [[_ Hno] | (reward' & owner & u & Hr & ? & ? & ? & ?)].
  { by destruct (Hno reward). }
  rewrite Hr in Hok. injection Hok as <-.
  by exists id, d, ip, owner, u.
Qed.

Lemma end_success_means_credited_witness :
  ∃ id d ip owner u,
    pending_token started_store "t1" id d ∧
    origin_is (from_ip "1.2.3.4") ip ∧
    origin_matches d (ip_api providers ip) ∧
    d !! "token_reward" = Some (VNum 7.5) ∧
    d !! "userId" = Some (VStr owner) ∧
    users started_store !! owner = Some u ∧
    tokens (checkpoint_end providers (from_ip "1.2.3.4") "t1" started_store).2
    = <[id := <["status" := VStr "used"]> d]> (tokens started_store) ∧
    users (checkpoint_end providers (from_ip "1.2.3.4") "t1" started_store).2
    = <[owner := apply_update {["balance" := Increment 7.5]} u]>
        (users started_store).
Proof.
  apply (end_success_means_credited providers (from_ip "1.2.3.4") "t1"
           started_store 7.5%Q).
  reflexivity.
Defined.

(** X10: no credit without the success page: unless end answers the success page,
    be it with another page or with an exception, the user collection is as
    it was. *)
Theorem end_without_success_credits_nothing P request token st :
  (∃ reward, (checkpoint_end P request token st).1 = Ok (Credited reward)) ∨
  users (checkpoint_end P request token st).2 = users st.
Proof.
  destruct (end_outcome_writes _ _ _ _ _ _ (end_outcome_total P request token st))
    as [(_ & ? & _) | (id & d & ip & _ & _ & _ & _ & _ & Hu)]; [by right |].
  destruct Hu as [[? _] | (reward & owner & u & Hr & _)]; [by right |].
  left. by exists reward.
Qed.

(** ** [checkpoint_end]: missing fields and missing records *)

(** X11: the two writes of end are separate calls to the store, the status first.
    When the token names no owner, or an owner that has no record, the call
    raises after the first write: the token is used and nobody is credited.
    Without an owner on the token the exception is [KeyError]; for an owner
    without record its kind is left open. *)
Theorem end_consumes_token_without_owner P request token st id d ip reward :
  pending_token st token id d →
  origin_is request ip →
  ip_status (ip_api P ip) = "success" →
  origin_matches d (ip_api P ip) →
  d !! "token_reward" = Some (VNum reward) →
  d !! "userId" = None ∨
  (∃ owner, d !! "userId" = Some (VStr owner) ∧ users st !! owner = None) →
  ∃ e st',
    checkpoint_end P request token st = (Raised e, st') ∧
    (d !! "userId" = None → e = KeyError "userId") ∧
    tokens st' = <[id := <["status" := VStr "used"]> d]> (tokens st) ∧
    users st' = users st.
Proof.
  intros Hp Hip Hgeo [Ha Hc] Hr Howner.
  pose proof Hp as [Hq _].
  pose proof (where_token_first_match _ _ _ _ Hq) as (Hl & _).
  unfold checkpoint_end, bind. rewrite (end_reaches_await _ _ _ _ id d ip) by done.
  unfold end_from_await. cbn [reply token_data token_doc_id].
  rewrite Hgeo, Ha, Hc. cbn [negb str_eq]. rewrite !String.eqb_refl.
  cbn [negb orb]. run. rewrite Hr. run. rewrite Hl. run.
  destruct Howner as [-> | (owner & -> & Hu)]; run.
  - eexists _, _. split; [done |]. split; [done |].
    cbn [tokens users]. by rewrite apply_update_set.
  - rewrite Hu. eexists _, _. split; [done |]. split; [by intros [=] |].
    cbn [tokens users]. by rewrite apply_update_set.
Qed.

Lemma end_consumes_token_without_owner_witness :
  ∃ e st',
    checkpoint_end providers (from_ip "1.2.3.4") "t1" orphan_store
    = (Raised e, st') ∧
    (stamp geo_US issued_doc !! "userId" = None → e = KeyError "userId") ∧
    tokens st' = <["doc1" := <["status" := VStr "used"]> (stamp geo_US issued_doc)]>
                   (tokens orphan_store) ∧
    users st' = users orphan_store.
Proof.
  apply (end_consumes_token_without_owner providers (from_ip "1.2.3.4") "t1"
           orphan_store "doc1" (stamp geo_US issued_doc) "1.2.3.4" 7.5%Q).
  - split; reflexivity.
  - split; [reflexivity | discriminate].
  - reflexivity.
  - split; reflexivity.
  - reflexivity.
  - right. exists "u1". split; reflexivity.
Defined.

(** X12: a token document without [status], and a matching one without
    [token_reward], make end raise [KeyError] before it has written anything:
    the reward is read before the status is written. *)
Theorem end_missing_field_raises_before_writing P request token st id d :
  where_token (tokens st) token = Some (id, d) →
  (d !! "status" = None →
   checkpoint_end P request token st
   = (Raised (KeyError "status"), after_calls st [TokensQuery token])) ∧
  (∀ ip, d !! "status" = Some (VStr "pending") →
         origin_is request ip →
         ip_status (ip_api P ip) = "success" →
         origin_matches d (ip_api P ip) →
         d !! "token_reward" = None →
         checkpoint_end P request token st
         = (Raised (KeyError "token_reward"),
            after_calls st [TokensQuery token; GeoLookup ip])).
Proof.
  intros Hq. split.
  - intros Hs. run. rewrite Hq. run. by rewrite Hs.
  - intros ip Hs Hip Hgeo [Ha Hc] Hr.
    unfold checkpoint_end, bind.
    rewrite (end_reaches_await _ _ _ _ id d ip) by done.
    unfold end_from_await. cbn [reply token_data token_doc_id].
    rewrite Hgeo, Ha, Hc. cbn [negb str_eq]. rewrite !String.eqb_refl.
    cbn [negb orb]. run. by rewrite Hr.
Qed.

Lemma end_missing_field_raises_before_writing_witness :
  checkpoint_end providers (from_ip "1.2.3.4") "t1" bare_store
  = (Raised (KeyError "status"), after_calls bare_store [TokensQuery "t1"]) ∧
  checkpoint_end providers (from_ip "1.2.3.4") "t1" unrewarded_store
  = (Raised (KeyError "token_reward"),
     after_calls unrewarded_store [TokensQuery "t1"; GeoLookup "1.2.3.4"]).
Proof.
  split.
  - destruct (end_missing_field_raises_before_writing providers
                (from_ip "1.2.3.4") "t1" bare_store "doc1"
                {["token" := VStr "t1"]}) as [Hstatus _].
    + reflexivity.
    + apply Hstatus. reflexivity.
  - destruct (end_missing_field_raises_before_writing providers
                (from_ip "1.2.3.4") "t1" unrewarded_store "doc1"
                (delete "token_reward" (stamp geo_US issued_doc)))
      as [_ Hreward].
    + reflexivity.
    + apply (Hreward "1.2.3.4").
      * reflexivity.
      * split; [reflexivity | discriminate].
      * reflexivity.
      * split; reflexivity.
      * reflexivity.
Defined.

(** ** Invariants over any history of calls *)

Lemma doc_evolves_refl (d : doc) : doc_evolves d d.
Proof. split; [done | by left]. Qed.

Lemma doc_evolves_trans (d1 d2 d3 : doc) :
  doc_evolves d1 d2 → doc_evolves d2 d3 → doc_evolves d1 d3.
Proof.
  intros [F12 S12] [F23 S23]. split.
  - intros field ? ? ? ?. by rewrite F23, F12.
  - destruct S23 as [E23 | [P2 U3]].
    + rewrite E23. exact S12.
    + destruct S12 as [E12 | [_ U2]]; [| congruence].
      right. split; congruence.
Qed.

Lemma doc_evolves_stamp (info : ip_info) (d : doc) : doc_evolves d (stamp info d).
Proof.
  split.
  - intros field ? ? ? _. by apply stamp_other_field.
  - left. by apply stamp_other_field.
Qed.

Lemma doc_evolves_used (d : doc) :
  d !! "status" = Some (VStr "pending") →
  doc_evolves d (<["status" := VStr "used"]> d).
Proof.
  intros Hs. split.
  - intros field _ _ _ ?. by rewrite lookup_insert_ne.
  - right. by rewrite lookup_insert_eq.
Qed.

Lemma tokens_evolve_refl (c : collection) : tokens_evolve c c.
Proof. intros id. destruct (c !! id); [apply doc_evolves_refl | done]. Qed.

Lemma tokens_evolve_trans (c1 c2 c3 : collection) :
  tokens_evolve c1 c2 → tokens_evolve c2 c3 → tokens_evolve c1 c3.
Proof.
  intros H12 H23 id. specialize (H12 id). specialize (H23 id).
  destruct (c1 !! id), (c2 !! id), (c3 !! id); try done.
  by eapply doc_evolves_trans.
Qed.

Lemma tokens_evolve_insert (c : collection) id (d d' : doc) :
  c !! id = Some d → doc_evolves d d' → tokens_evolve c (<[id := d']> c).
Proof.
  intros Hl Hd id0. destruct (decide (id = id0)) as [<- | ?].
  - by rewrite lookup_insert_eq, Hl.
  - rewrite lookup_insert_ne by done.
    destruct (c !! id0); [apply doc_evolves_refl | done].
Qed.

Lemma start_tokens_evolve P request token st :
  tokens_evolve (tokens st) (tokens (checkpoint_start P request token st).2).
Proof.
  destruct (start_outcome_total P request token st);
    try apply tokens_evolve_refl;
    match goal with
    | Hq : where_token _ _ = Some _ |- _ =>
        apply where_token_first_match in Hq as (Hl & _)
    end;
    (eapply tokens_evolve_insert; [done | apply doc_evolves_stamp]).
Qed.

Lemma end_tokens_evolve P request token st :
  tokens_evolve (tokens st) (tokens (checkpoint_end P request token st).2).
Proof.
  destruct (end_outcome_writes _ _ _ _ _ _ (end_outcome_total P request token st))
    as [(-> & _) | (id & d & ip & [Hq Hs] & _ & _ & _ & -> & _)].
  - apply tokens_evolve_refl.
  - apply where_token_first_match in Hq as (Hl & _).
    eapply tokens_evolve_insert; [done | by apply doc_evolves_used].
Qed.

Lemma serve_tokens_evolve (c : call) (st : state) :
  tokens_evolve (tokens st) (tokens (serve c st).2).
Proof.
  destruct c; unfold serve; rewrite try_except_state.
  - apply start_tokens_evolve.
  - apply end_tokens_evolve.
Qed.

Lemma serve_all_tokens_evolve (history : list call) (st : state) :
  tokens_evolve (tokens st) (tokens (serve_all history st).2).
Proof.
  revert st. induction history as [| c history IH]; intros st.
  - apply tokens_evolve_refl.
  - rewrite serve_all_cons_state.
    eapply tokens_evolve_trans; [apply serve_tokens_evolve | apply IH].
Qed.

(** X13: the life of a token document, over any history of start and end calls:
    no document is created or deleted; the fields other than the status and
    the three stamped ones, so the token and the owner, never change; and
    the status either is what it was or has gone from [pending] to [used]. *)
Theorem tokens_evolve_over_history (history : list call) (st : state) id :
  match tokens st !! id, tokens (serve_all history st).2 !! id with
  | Some d, Some d' =>
      (∀ field, field ≠ "initial_ip" → field ≠ "initial_country" →
                field ≠ "token_reward" → field ≠ "status" →
                d' !! field = d !! field) ∧
      (d' !! "status" = d !! "status" ∨
       (d !! "status" = Some (VStr "pending") ∧
        d' !! "status" = Some (VStr "used")))
  | None, None => True
  | _, _ => False
  end.
Proof. exact (serve_all_tokens_evolve history st id). Qed.

Lemma doc_evolves_has_token token (d d' : doc) :
  doc_evolves d d' → has_token token d' = has_token token d.
Proof. intros [F _]. unfold has_token. by rewrite F. Qed.

Lemma tokens_evolve_where_token (c c' : collection) token id d :
  tokens_evolve c c' →
  where_token c token = Some (id, d) →
  ∃ d', where_token c' token = Some (id, d') ∧ doc_evolves d d'.
Proof.
  intros Hev (Hl & Ht & Hmin)%where_token_first_match.
  pose proof (Hev id) as Hid. rewrite Hl in Hid.
  destruct (c' !! id) as [d' |] eqn:Hl'; [| done].
  exists d'. split; [| done].
  apply first_match_where_token. repeat split; [done | |].
  - by rewrite (doc_evolves_has_token token d d').
  - intros id2 d2' Hl2' Ht2'. pose proof (Hev id2) as H2. rewrite Hl2' in H2.
    destruct (c !! id2) as [d2 |] eqn:Hl2; [| done].
    apply (Hmin id2 d2); [done |].
    by rewrite <- (doc_evolves_has_token token d2 d2').
Qed.

Lemma tokens_evolve_where_token_None (c c' : collection) token :
  tokens_evolve c c' →
  where_token c token = None → where_token c' token = None.
Proof.
  intros Hev Hnone.
  destruct (where_token c' token) as [[id d'] |] eqn:Hq'; [| done].
  apply where_token_first_match in Hq' as (Hl' & Ht' & _).
  pose proof (Hev id) as Hid. rewrite Hl' in Hid.
  destruct (c !! id) as [d |] eqn:Hl; [| done].
  rewrite (doc_evolves_has_token token d d' Hid) in Ht'.
  by rewrite (where_token_None _ _ _ _ Hnone Hl) in Ht'.
Qed.

(** X14: the binding of a token to its document is stable: after any history of
    calls the query for a token answers with the document of the same name
    as before, or with none as before. *)
Theorem token_query_stable_over_history (history : list call) (st : state) token :
  fst <$> where_token (tokens (serve_all history st).2) token
  = fst <$> where_token (tokens st) token.
Proof.
  pose proof (serve_all_tokens_evolve history st) as Hev.
  destruct (where_token (tokens st) token) as [[id d] |] eqn:Hq.
  - destruct (tokens_evolve_where_token _ _ _ _ _ Hev Hq) as (d' & -> & _). done.
  - by rewrite (tokens_evolve_where_token_None _ _ _ Hev Hq).
Qed.

(** X15: [used] is final whatever is called afterwards, start included: once the
    document of a token is not pending, then after any history of start and
    end calls an end call on that token is answered [TokenAlreadyUsed] and
    writes nothing. A later start may stamp the token again, it cannot make
    it redeemable. *)
Theorem used_token_refused_after_any_history
  (history : list call) (st : state) token id d s P request :
  where_token (tokens st) token = Some (id, d) →
  d !! "status" = Some s →
  s ≠ VStr "pending" →
  checkpoint_end P request token (serve_all history st).2
  = (Ok TokenAlreadyUsed,
     after_calls (serve_all history st).2 [TokensQuery token]).
Proof.
  intros Hq Hs Hne.
  destruct (tokens_evolve_where_token _ _ _ _ _
              (serve_all_tokens_evolve history st) Hq)
    as (d' & Hq' & _ & [Hs' | [Hp _]]).
  - apply (end_not_pending _ _ _ _ id d' s); [done | congruence | done].
  - congruence.
Qed.

Lemma used_token_refused_after_any_history_witness :
  checkpoint_end providers (from_ip "9.9.9.9") "t1"
    (serve_all restart_history used_store).2
  = (Ok TokenAlreadyUsed,
     after_calls (serve_all restart_history used_store).2 [TokensQuery "t1"]).
Proof.
  apply (used_token_refused_after_any_history restart_history used_store "t1"
           "doc1" used_doc (VStr "used")).
  - reflexivity.
  - reflexivity.
  - discriminate.
Defined.

Lemma start_keeps_users P request token st :
  users (checkpoint_start P request token st).2 = users st.
Proof. by destruct (start_outcome_total P request token st). Qed.

Lemma users_evolve_refl (c : collection) : users_evolve c c.
Proof. intros id. by destruct (c !! id). Qed.

Lemma users_evolve_trans (c1 c2 c3 : collection) :
  users_evolve c1 c2 → users_evolve c2 c3 → users_evolve c1 c3.
Proof.
  intros H12 H23 id. specialize (H12 id). specialize (H23 id).
  destruct (c1 !! id), (c2 !! id), (c3 !! id); try done.
  intros field ?. by rewrite H23, H12.
Qed.

Lemma increment_other_field (reward : Q) (u : doc) field :
  field ≠ "balance" →
  apply_update {["balance" := Increment reward]} u !! field = u !! field.
Proof.
  intros ?. unfold apply_update. rewrite lookup_merge, lookup_singleton_ne by done.
  by destruct (u !! field).
Qed.

Lemma serve_users_evolve (c : call) (st : state) :
  users_evolve (users st) (users (serve c st).2).
Proof.
  destruct c as [P request token | P request token]; unfold serve;
    rewrite try_except_state.
  - rewrite start_keeps_users. apply users_evolve_refl.
  - destruct (end_outcome_writes _ _ _ _ _ _
                (end_outcome_total P request token st))
      as [(_ & -> & _) | (id & d & ip & _ & _ & _ & _ & _ & Hu)];
      [apply users_evolve_refl |].
    destruct Hu as [[-> _] | (reward & owner & u & _ & _ & _ & Hl & ->)];
      [apply users_evolve_refl |].
    intros id0. destruct (decide (owner = id0)) as [<- | ?].
    + rewrite lookup_insert_eq, Hl. intros field ?.
      by apply increment_other_field.
    + rewrite lookup_insert_ne by done. by destruct (users st !! id0).
Qed.

(** X16: the user collection, over any history of start and end calls: no user
    record is created or deleted, and no field of a user record other than
    [balance] is ever written. *)
Theorem users_evolve_over_history (history : list call) (st : state) id :
  match users st !! id, users (serve_all history st).2 !! id with
  | Some u, Some u' => ∀ field, field ≠ "balance" → u' !! field = u !! field
  | None, None => True
  | _, _ => False
  end.
Proof.
  revert id. change (users_evolve (users st) (users (serve_all history st).2)).
  revert st. induction history as [| c history IH]; intros st.
  - apply users_evolve_refl.
  - rewrite serve_all_cons_state.
    eapply users_evolve_trans; [apply serve_users_evolve | apply IH].
Qed.

(** ** Interleaved end calls: no credit is lost *)

Lemma credited_insert (tasks : list task) (i : nat) (t t' : task) :
  tasks !! i = Some t →
  (length (filter credited (<[i := t']> tasks)) + (if credited t then 1 else 0)
   = length (filter credited tasks) + (if credited t' then 1 else 0))%nat.
Proof.
  revert i. induction tasks as [| x tasks IH]; intros i Hl; [done |].
  destruct i as [| i]; cbn in Hl.
  - injection Hl as ->.
    change (<[0%nat := t']> (t :: tasks)) with (t' :: tasks).
    rewrite !filter_cons.
    destruct (credited t) eqn:Et, (credited t') eqn:Et';
      repeat case_decide; cbn [length]; try done; lia.
  - change (<[S i := t']> (x :: tasks)) with (x :: <[i := t']> tasks).
    rewrite !filter_cons. specialize (IH i Hl). revert IH.
    destruct (decide (credited x)); cbn [length];
      destruct (credited t), (credited t'); lia.
Qed.

Lemma end_until_await_not_pending P request token st id d s :
  where_token (tokens st) token = Some (id, d) →
  d !! "status" = Some s →
  s ≠ VStr "pending" →
  end_until_await P request token st
  = (Ok (inl TokenAlreadyUsed), after_calls st [TokensQuery token]).
Proof.
  intros Hq Hs Hne. run. rewrite Hq. run. rewrite Hs. run.
  assert (str_eq "pending" (Some s) = false) as ->; [| done].
  apply str_eq_false. congruence.
Qed.

(** A suspended call whose frame holds a matching token credits when it
    resumes, whatever the status of the document has become meanwhile: the
    status is not read again. *)
Lemma end_from_await_credits (fr : end_frame) (st : state) dcur reward owner u balance :
  ip_status (reply fr) = "success" →
  origin_matches (token_data fr) (reply fr) →
  token_data fr !! "token_reward" = Some (VNum reward) →
  token_data fr !! "userId" = Some (VStr owner) →
  tokens st !! token_doc_id fr = Some dcur →
  users st !! owner = Some u →
  u !! "balance" = Some (VNum balance) →
  end_from_await fr st
  = (Ok (Credited reward),
     {| tokens := <[token_doc_id fr := <["status" := VStr "used"]> dcur]> (tokens st);
        users := <[owner := <["balance" := VNum (balance + reward)]> u]> (users st);
        calls := calls st ++
                 [TokensUpdate (token_doc_id fr) {["status" := SetTo (VStr "used")]};
                  UsersUpdate owner {["balance" := Increment reward]}] |}).
Proof.
  intros Hgeo [Ha Hc] Hr Ho Hl Hu Hb.
  unfold end_from_await. rewrite Hgeo, Ha, Hc. cbn [negb str_eq].
  rewrite !String.eqb_refl. cbn [negb orb]. run. rewrite Hr. run. rewrite Hl. run.
  rewrite Ho. run. rewrite Hu.
  rewrite apply_update_set, (apply_update_increment _ _ balance) by done.
  by rewrite <- app_assoc.
Qed.

Section InterleavedEnds.
Context (P : Providers) (request : Request) (token : string) (st0 : state).
Context (id : string) (d : doc) (ip : string) (reward : Q).
Context (owner : string) (u0 : doc) (balance : Q).
Hypothesis Hquery : where_token (tokens st0) token = Some (id, d).
Hypothesis Hstatus : d !! "status" = Some (VStr "pending").
Hypothesis Horigin : origin_is request ip.
Hypothesis Hgeo : ip_status (ip_api P ip) = "success".
Hypothesis Hmatch : origin_matches d (ip_api P ip).
Hypothesis Hreward : d !! "token_reward" = Some (VNum reward).
Hypothesis Howner : d !! "userId" = Some (VStr owner).
Hypothesis Huser : users st0 !! owner = Some u0.
Hypothesis Hbalance : u0 !! "balance" = Some (VNum balance).

Local Abbreviation fr := (frame_at_await P id d ip).

Lemma between_turns_start (n : nat) :
  between_turns st0 id d owner reward balance
    (replicate n (Arrived P request token)) st0.
Proof.
  split; [by left |]. exists u0. split; [done |].
  assert (filter credited (replicate n (Arrived P request token)) = []) as ->.
  { induction n as [| n IH]; [done |]. cbn [replicate].
    rewrite filter_cons. by case_decide. }
  done.
Qed.

Lemma between_turns_calls tasks st es :
  between_turns st0 id d owner reward balance tasks st →
  between_turns st0 id d owner reward balance tasks (after_calls st es).
Proof. done. Qed.

(** One turn keeps what holds between the turns. *)
Lemma resume_between_turns tasks st i t :
  Forall (end_task P request token fr) tasks →
  between_turns st0 id d owner reward balance tasks st →
  tasks !! i = Some t →
  ∃ t' st',
    resume t st = (Ok t', st') ∧
    end_task P request token fr t' ∧
    between_turns st0 id d owner reward balance (<[i := t']> tasks) st'.
Proof.
  intros Hall [Htok (u & Hu & Hb)] Hl.
  pose proof (where_token_first_match _ _ _ _ Hquery) as (Hl0 & Ht0 & _).
  assert (end_task P request token fr t) as [-> | [-> | [r ->]]].
  { eapply Forall_forall; [done |]. by eapply list_elem_of_lookup_2. }
  - (* the call arrives: it reads the status *)
    unfold resume, bind, try_except, ret.
    destruct Htok as [Htok | Htok].
    + rewrite (end_reaches_await P request token st id d ip);
        [| split; [by rewrite Htok | done] | done].
      eexists _, _. split; [done |]. split; [right; by left |].
      split; [by left |]. exists u. split; [done |].
      pose proof (credited_insert tasks i _ (Suspended fr) Hl) as Hc.
      cbn in Hc. replace (length (filter credited (<[i:=Suspended fr]> tasks)))
        with (length (filter credited tasks)) by lia. done.
    + rewrite (end_until_await_not_pending P request token st id
                 (<["status" := VStr "used"]> d) (VStr "used")).
      * eexists _, _. split; [done |]. split; [right; right; by eexists |].
        split; [by right |]. exists u. split; [done |].
        pose proof (credited_insert tasks i _ (Finished (Ok TokenAlreadyUsed)) Hl)
          as Hc.
        cbn in Hc.
        replace (length (filter credited (<[i:=Finished (Ok TokenAlreadyUsed)]> tasks)))
          with (length (filter credited tasks)) by lia. done.
      * rewrite Htok. eapply where_token_insert; [done |].
        by rewrite has_token_set_status.
      * by rewrite lookup_insert_eq.
      * done.
  - (* the call resumes: it writes, without reading the status again *)
    unfold resume, bind, try_except, ret.
    assert (∃ dcur, tokens st !! id = Some dcur ∧
                    <[id := <["status" := VStr "used"]> dcur]> (tokens st)
                    = <[id := <["status" := VStr "used"]> d]> (tokens st0))
      as (dcur & Hcur & Hnew).
    { destruct Htok as [-> | ->].
      - by exists d.
      - exists (<["status" := VStr "used"]> d).
        by rewrite lookup_insert_eq, !insert_insert_eq. }
    rewrite (end_from_await_credits fr st dcur reward owner u
               (credited_times (length (filter credited tasks)) reward balance));
      try done.
    eexists _, _. split; [done |]. split; [right; right; by eexists |].
    split; [right; exact Hnew |].
    eexists. cbn [users]. split; [by rewrite lookup_insert_eq |].
    rewrite lookup_insert_eq.
    pose proof (credited_insert tasks i _ (Finished (Ok (Credited reward))) Hl)
      as Hc.
    cbn in Hc.
    replace (length (filter credited (<[i:=Finished (Ok (Credited reward))]> tasks)))
      with (S (length (filter credited tasks))) by lia.
    done.
  - (* the call has finished *)
    exists (Finished r), st. split; [done |]. split; [right; right; by eexists |].
    rewrite list_insert_id by done. split; [done |]. by exists u.
Qed.

Lemma event_loop_between_turns schedule tasks st :
  Forall (end_task P request token fr) tasks →
  between_turns st0 id d owner reward balance tasks st →
  ∃ tasks' st',
    event_loop schedule tasks st = (Ok tasks', st') ∧
    between_turns st0 id d owner reward balance tasks' st'.
Proof.
  revert tasks st.
  induction schedule as [| i schedule IH]; intros tasks st Hall Hinv.
  - by exists tasks, st.
  - cbn [event_loop]. destruct (tasks !! i) as [t |] eqn:Hl; [| by apply IH].
    destruct (resume_between_turns tasks st i t Hall Hinv Hl)
      as (t' & st' & Hrun & Ht' & Hinv').
    unfold bind. rewrite Hrun. apply IH; [| done].
    by apply Forall_insert.
Qed.
End InterleavedEnds.

(** X17: no credit is lost and none is invented: however [n] end calls on one
    pending token with the recorded origin are interleaved at their address
    lookups, and wherever the schedule stops, the loop does not raise, the
    token collection is the initial one or the initial one with the token
    marked used, and the balance of the owner is the initial balance plus the
    reward once for each call that has answered the success page. *)
Theorem interleaved_ends_lose_no_credit
  P request token st id d ip reward owner u balance n schedule :
  where_token (tokens st) token = Some (id, d) →
  d !! "status" = Some (VStr "pending") →
  origin_is request ip →
  ip_status (ip_api P ip) = "success" →
  origin_matches d (ip_api P ip) →
  d !! "token_reward" = Some (VNum reward) →
  d !! "userId" = Some (VStr owner) →
  users st !! owner = Some u →
  u !! "balance" = Some (VNum balance) →
  ∃ tasks st',
    event_loop schedule (replicate n (Arrived P request token)) st
    = (Ok tasks, st') ∧
    between_turns st id d owner reward balance tasks st'.
Proof.
  intros. eapply event_loop_between_turns with (ip := ip); try done.
  - apply Forall_replicate. by left.
  - by apply between_turns_start with (u0 := u).
Qed.

Lemma interleaved_ends_lose_no_credit_witness :
  ∃ tasks st',
    event_loop [0; 1; 2; 0; 1; 2]%nat
      (replicate 3 (Arrived providers (from_ip "1.2.3.4") "t1")) started_store
    = (Ok tasks, st') ∧
    between_turns started_store "doc1" (stamp geo_US issued_doc) "u1" 7.5 0
      tasks st'.
Proof.
  apply (interleaved_ends_lose_no_credit providers (from_ip "1.2.3.4") "t1"
           started_store "doc1" (stamp geo_US issued_doc) "1.2.3.4" 7.5%Q "u1"
           {["balance" := VNum 0]} 0%Q 3%nat [0; 1; 2; 0; 1; 2]%nat).
  - reflexivity.
  - reflexivity.
  - split; [reflexivity | discriminate].
  - reflexivity.
  - split; reflexivity.
  - reflexivity.
  - reflexivity.
  - reflexivity.
  - reflexivity.
Defined.

(** ** The reward table *)

Lemma cpm_default (country_code : string) :
  country_code ∉ ["GL"; "IE"; "US"; "BE"; "GB"; "CA"; "BR"; "NZ"; "AU"; "SE";
                  "FR"; "ES"; "DE"; "IN"; "ID"; "PH"; "IT"; "TH"; "SA"; "MX"] →
  CPM_RATES !! country_code = None.
Proof. intros Hnot. by apply not_elem_of_list_to_map_1. Qed.

(** X18: the reward by country code, for every string: 10 for GL and IE, whose
    rates 22 and 16 reach the first threshold; 7.5 for US, BE and GB, whose
    rates 11, 7.5 and 7 reach the second one; and 5 for every other string,
    be it one of the fifteen other codes of the table, a code in another
    case, or no code at all. *)
Theorem get_token_reward_by_code (country_code : string) :
  get_token_reward country_code
  = if decide (country_code ∈ ["GL"; "IE"]) then 10%Q
    else if decide (country_code ∈ ["US"; "BE"; "GB"]) then 7.5%Q
    else 5%Q.
Proof.
  destruct (decide (country_code ∈
              ["GL"; "IE"; "US"; "BE"; "GB"; "CA"; "BR"; "NZ"; "AU"; "SE";
               "FR"; "ES"; "DE"; "IN"; "ID"; "PH"; "IT"; "TH"; "SA"; "MX"]))
    as [Hin | Hnot].
  - repeat (apply elem_of_cons in Hin as [-> | Hin]; [by vm_compute |]).
    by apply elem_of_nil in Hin.
  - unfold get_token_reward, cpm_of. rewrite (cpm_default _ Hnot). cbn.
    repeat case_decide; try done; exfalso; apply Hnot;
      set_unfold; intuition auto.
Qed.

(** ** The link shortener *)

(** X19: [shorten_with_shrinkme] asks the provider once and touches no collection.
    It returns a link exactly when the reply reports success and carries one;
    in every other case it raises. A reply that does not report success
    raises with the error of the provider, or with [Unknown error] when it
    names none, and this exception is not taken for a failed request. *)
Theorem shorten_returns_link_iff_success P long_url st :
  ∃ r,
    shorten_with_shrinkme P long_url st = (r, after_calls st [Shorten long_url]) ∧
    (∀ link, r = Ok link ↔ shortened (shrinkme P long_url) link) ∧
    ((∃ e, r = Raised e) ↔ shortening_fails (shrinkme P long_url)) ∧
    (∀ status link error,
       shrinkme P long_url = ShrinkmeJson status link error →
       status ≠ Some "success" →
       r = Raised (Exception ("Failed to shorten URL: "
                              ++ default "Unknown error" error))).
Proof.
  unfold shortened, shortening_fails. run.
  destruct (shrinkme P long_url) as [e | status [link |] error].
  - eexists. split; [done |]. split; [| split].
    + intros link. split; [done | by intros [? ?]].
    + split; [done | intros _; by eexists].
    + by intros ? ? ? ?.
  - case_bool_decide as Hs.
    + subst status. eexists. split; [done |]. split; [| split].
      * intros link'. split.
        -- intros [= ->]. by eexists.
        -- by intros [? [= ->]].
      * split; [by intros [? ?] | by intros [? | ?]].
      * by intros ? ? ? [= <- _ _] ?.
    + eexists. split; [done |]. split; [| split].
      * intros link'. split; [done | by intros [? [= -> _ _]]].
      * split; [by left | intros _; by eexists].
      * by intros ? ? ? [= <- <- <-] _.
  - case_bool_decide as Hs.
    + eexists. split; [done |]. split; [| split].
      * intros link. split; [done | by intros [? ?]].
      * split; [by right | intros _; by eexists].
      * by intros ? ? ? [= <- _ _] ?.
    + eexists. split; [done |]. split; [| split].
      * intros link. split; [done | by intros [? ?]].
      * split; [by left | intros _; by eexists].
      * by intros ? ? ? [= <- <- <-] _.
Qed.

(** ** The origin header *)

(** X20: the handlers take the origin from the header [cf-connecting-ip] and from
    nothing else of the request: two requests that agree on this header are
    answered alike and leave the same state. *)
Theorem handlers_read_only_cf_connecting_ip P request request' token st :
  headers request !! "cf-connecting-ip" = headers request' !! "cf-connecting-ip" →
  checkpoint_start P request token st = checkpoint_start P request' token st ∧
  checkpoint_end P request token st = checkpoint_end P request' token st.
Proof.
  intros Hh. unfold checkpoint_start, checkpoint_end, end_until_await.
  by rewrite Hh.
Qed.

Lemma handlers_read_only_cf_connecting_ip_witness :
  checkpoint_start providers (from_ip "1.2.3.4") "t1" issued_store
  = checkpoint_start providers forwarded_request "t1" issued_store ∧
  checkpoint_end providers (from_ip "1.2.3.4") "t1" started_store
  = checkpoint_end providers forwarded_request "t1" started_store.
Proof.
  split.
  - apply (handlers_read_only_cf_connecting_ip providers (from_ip "1.2.3.4")
             forwarded_request "t1" issued_store). reflexivity.
  - apply (handlers_read_only_cf_connecting_ip providers (from_ip "1.2.3.4")
             forwarded_request "t1" started_store). reflexivity.
Defined.

(** ** A second start from another origin *)

Lemma end_mismatch_run P request token st id d ip :
  pending_token st token id d →
  origin_is request ip →
  ip_status (ip_api P ip) = "success" →
  ¬ origin_matches d (ip_api P ip) →
  checkpoint_end P request token st
  = (Ok OriginMismatch, after_calls st [TokensQuery token; GeoLookup ip]).
Proof.
  intros Hp Hip Hgeo Hno.
  unfold checkpoint_end, bind. rewrite (end_reaches_await _ _ _ _ id d ip) by done.
  unfold end_from_await. cbn [reply token_data token_doc_id].
  rewrite Hgeo, String.eqb_refl. cbn [negb].
  assert (negb (str_eq (ip_query (ip_api P ip)) (d !! "initial_ip"))
          || negb (str_eq (ip_country (ip_api P ip)) (d !! "initial_country"))
          = true) as ->; [| done].
  apply orb_true_iff. rewrite !negb_true_iff, !str_eq_false.
  unfold origin_matches in Hno.
  destruct (str_eq (ip_query (ip_api P ip)) (d !! "initial_ip")) eqn:E.
  - apply str_eq_true in E. right. intros E'. tauto.
  - apply str_eq_false in E. by left.
Qed.

(** X21: a start from another origin takes the token away from the first one:
    after a start that resolved to one address and a later start on the same
    pending token that resolved to another address, an end call from the
    first origin is answered [OriginMismatch] and writes nothing. *)
Theorem restamped_token_refuses_first_origin
  P request1 ip1 request2 ip2 token st id d :
  token ≠ "ping-dummy-token" →
  where_token (tokens st) token = Some (id, d) →
  d !! "status" = Some (VStr "pending") →
  origin_is request1 ip1 →
  ip_status (ip_api P ip1) = "success" →
  origin_is request2 ip2 →
  ip_status (ip_api P ip2) = "success" →
  ip_query (ip_api P ip1) ≠ ip_query (ip_api P ip2) →
  let st2 := (checkpoint_start P request2 token
                (checkpoint_start P request1 token st).2).2 in
  checkpoint_end P request1 token st2
  = (Ok OriginMismatch, after_calls st2 [TokensQuery token; GeoLookup ip1]).
Proof.
  intros Hping Hq Hs Hip1 Hgeo1 Hip2 Hgeo2 Hdiff st2.
  pose proof (where_token_first_match _ _ _ _ Hq) as (_ & Ht & _).
  assert (where_token
            (tokens (stamped_state st ip1 token id (ip_api P ip1) d)) token
          = Some (id, stamp (ip_api P ip1) d)) as Hq1.
  { cbn [tokens stamped_state]. eapply where_token_insert; [done |].
    by rewrite has_token_stamp. }
  assert (st2 = stamped_state
                  (stamped_state st ip1 token id (ip_api P ip1) d)
                  ip2 token id (ip_api P ip2) (stamp (ip_api P ip1) d)) as Est.
  { unfold st2. rewrite (start_state_stamped P request1 token st id d ip1) by done.
    by apply start_state_stamped. }
  apply (end_mismatch_run _ _ _ _ id
           (stamp (ip_api P ip2) (stamp (ip_api P ip1) d))); try done.
  - rewrite Est. split.
    + cbn [tokens stamped_state]. eapply where_token_insert; [done |].
      by rewrite !has_token_stamp.
    + by rewrite !stamp_other_field.
  - intros [Ha _]. unfold stamp in Ha at 1. rewrite lookup_insert_eq in Ha.
    congruence.
Qed.

Lemma restamped_token_refuses_first_origin_witness :
  checkpoint_end providers (from_ip "1.2.3.4") "t1" twice_started_store
  = (Ok OriginMismatch,
     after_calls twice_started_store
       [TokensQuery "t1"; GeoLookup "1.2.3.4"]).
Proof.
  apply (restamped_token_refuses_first_origin providers (from_ip "1.2.3.4")
           "1.2.3.4" (from_ip "9.9.9.9") "9.9.9.9" "t1" issued_store "doc1"
           issued_doc).
  - discriminate.
  - reflexivity.
  - reflexivity.
  - split; [reflexivity | discriminate].
  - reflexivity.
  - split; [reflexivity | discriminate].
  - reflexivity.
  - discriminate.
Defined.
